(** * rockup: the native win32 Ruby script launcher (src/windows/rockup.c)

    A shallow embedding of [main] and the properties of the launcher's
    contract: install-root truncation, path derivation, child argument
    vector assembly, diagnostics and exit-status relay. *)

From Stdlib Require Import ZArith Ascii String DecimalString.
From stdpp Require Import base tactics option list strings.

Local Open Scope Z_scope.
Local Open Scope nat_scope.

(** ** Data *)

(** A C [char] is an [ascii]; a C string is the run of characters before
    the first NUL, kept as a [list ascii]. *)

Definition NUL : ascii := "000"%char.

(** The character literal written '\\' in the source: one backslash. *)
Definition sep : ascii := "\"%char.

(** [#define SZ 32767] *)
Definition SZ : nat := Z.to_nat 32767.

(** The string literal of a format's fixed part, as characters. *)
Definition lit (s : string) : list ascii := list_ascii_of_string s.

(** The arrays [main] subscripts: the [root] path buffer, the assembled
    [argv] and the incoming [_argv]. *)
Inductive buffer := Root | Argv | InArgv.

(** What a run does, in program order: array subscripts of [main] (kept to
    state memory safety), text sent to standard output, and the process
    creation request. *)
Inductive event :=
| EvRead (b : buffer) (i : Z)
| EvWrite (b : buffer) (i : Z)
| EvPrint (s : list ascii)
| EvSpawn (cmd : list ascii) (args : list (list ascii)).

(** Undefined behaviour of the C program: a subscript outside its array, or
    a null pointer handed to a library routine that reads a string. *)
Inductive fault :=
| OutOfBounds (b : buffer) (i : Z)
| NullPointer.

Inductive result (A : Type) :=
| Ok (a : A)
| Fault (f : fault).
Arguments Ok {A} a.
Arguments Fault {A} f.

(** ** The monad of runs: a trace of events and a value or a fault *)

Definition M (A : Type) : Type := list event * result A.

#[global] Instance M_ret : MRet M := λ A a, ([], Ok a).

#[global] Instance M_bind : MBind M := λ A B f m,
  match m.2 with
  | Ok a => (m.1 ++ (f a).1, (f a).2)
  | Fault e => (m.1, Fault e)
  end.

Definition emit (e : event) : M unit := ([e], Ok tt).

Definition raise {A} (e : fault) : M A := ([], Fault e).

(** [a[i]] as an rvalue. *)
Definition load {A} (b : buffer) (a : list A) (i : nat) : M A :=
  emit (EvRead b (Z.of_nat i));;
  match a !! i with
  | Some x => mret x
  | None => raise (OutOfBounds b (Z.of_nat i))
  end.

(** [a[i] = x]. *)
Definition store {A} (b : buffer) (a : list A) (i : nat) (x : A) : M (list A) :=
  emit (EvWrite b (Z.of_nat i));;
  if decide (i < length a) then mret (<[i:=x]> a)
  else raise (OutOfBounds b (Z.of_nat i)).

(** ** C library and OS primitives *)

(** [strlen]: the index of the first NUL; none inside the array is a read
    past its end. *)
Fixpoint strlen_from (a : list ascii) : option nat :=
  match a with
  | [] => None
  | c :: a' => if decide (c = NUL) then Some 0 else S <$> strlen_from a'
  end.

Definition strlen (b : buffer) (a : list ascii) : M nat :=
  match strlen_from a with
  | Some n => mret n
  | None => raise (OutOfBounds b (Z.of_nat (length a)))
  end.

(** The string a [%s] conversion reads from a character array. *)
Definition read_cstr (b : buffer) (a : list ascii) : M (list ascii) :=
  n ← strlen b a; mret (take n a).

(** [malloc(n)]: [n] characters of indeterminate content. *)
Definition malloc (junk : nat → ascii) (n : nat) : list ascii :=
  junk <$> seq 0 n.

(** [calloc(n, sizeof(char* ))]: [n] null pointers. A [char*] slot is [None]
    for NULL and otherwise the string it points to. *)
Definition calloc (n : nat) : list (option (list ascii)) :=
  replicate n None.

(** [GetModuleFileName(NULL, buf, n)]: the path of the running executable,
    cut to [n - 1] characters when it does not fit, and its terminator,
    written over the start of [buf]. *)
Definition GetModuleFileName (self : list ascii) (buf : list ascii) (n : nat)
  : list ascii :=
  let s := take (n - 1) self in
  take n (s ++ [NUL]) ++ drop (length (take n (s ++ [NUL]))) buf.

(** [snprintf(dst, n, "%s<suffix>", s)]: the string left in [dst] (at most
    [n - 1] characters) and the returned count, the length the whole
    output would have had. *)
Definition snprintf (n : nat) (s : list ascii) (suffix : string)
  : list ascii * Z :=
  let out := s ++ lit suffix in
  (take (n - 1) out, Z.of_nat (length out)).

(** [printf(...)] of already formatted text. *)
Definition printf (s : list ascii) : M unit := emit (EvPrint s).

(** [%d] *)
Definition dec (z : Z) : list ascii :=
  lit (NilZero.string_of_int (Z.to_int z)).

(** ** Step 2 of [main]: cutting the path back to the install root *)

(** [while(root[--i] != '\\');] with [i] the value before the first
    decrement; the returned index is the value of [i] after the loop.
    Decrementing past 0 subscripts [root[-1]]. *)
Fixpoint scan_back (root : list ascii) (i : nat) : M nat :=
  match i with
  | O => emit (EvRead Root (-1)%Z);; raise (OutOfBounds Root (-1)%Z)
  | S j =>
      c ← load Root root j;
      if decide (c = sep) then mret j else scan_back root j
  end.

(** [i = strlen(root); while(root[--i] != '\\'); while(root[--i] != '\\');
    root[i] = '\0';] *)
Definition truncate_root (root : list ascii) : M (list ascii) :=
  i ← strlen Root root;
  i ← scan_back root i;
  i ← scan_back root i;
  store Root root i NUL.

(** ** Step 3: the two derived paths *)

Definition ruby_suffix : string := "\ruby\bin\ruby.exe".
Definition script_suffix : string := "\ruby\bin\rockup".

(** [snprintf(ruby, SZ, "%s\\ruby\\bin\\ruby.exe", root);
    snprintf(script, SZ, "%s\\ruby\\bin\\rockup", root);]
    Both return values are discarded. The destination buffers are written
    once and only read as strings afterwards, so each is kept as the string
    it holds. *)
Definition derive_paths (root : list ascii) : M (list ascii * list ascii) :=
  r ← read_cstr Root root;
  let ruby := (snprintf SZ r ruby_suffix).1 in
  r ← read_cstr Root root;
  let script := (snprintf SZ r script_suffix).1 in
  mret (ruby, script).

(** ** Step 4: the child argument vector *)

(** [for(int x = 1; x < _argc; ++x) argv[i++] = _argv[x];] with [n] the
    number of iterations left, [_argc - x]. *)
Fixpoint copy_args (n : nat) (_argv : list (list ascii)) (x : nat)
    (argv : list (option (list ascii))) (i : nat)
  : M (list (option (list ascii)) * nat) :=
  match n with
  | O => mret (argv, i)
  | S n' =>
      p ← load InArgv _argv x;
      argv ← store Argv argv i (Some p);
      copy_args n' _argv (S x) argv (S i)
  end.

(** [char** argv = calloc(SZ, sizeof(char* )); i = 0; argv[i++] = ruby;
    argv[i++] = script; for(...) ...] *)
Definition build_argv (ruby script : list ascii) (_argv : list (list ascii))
  : M (list (option (list ascii))) :=
  let _argc := length _argv in
  let argv := calloc SZ in
  argv ← store Argv argv 0 (Some ruby);
  argv ← store Argv argv 1 (Some script);
  '(argv, _) ← copy_args (_argc - 1) _argv 1 argv 2;
  mret argv.

(** Lines 22 to 32: from the truncated [root] to the assembled vector. *)
Definition child_argv (root : list ascii) (_argv : list (list ascii))
  : M (list (option (list ascii))) :=
  '(ruby, script) ← derive_paths root;
  build_argv ruby script _argv.

(** ** Step 5: diagnostics of a debug build *)

Definition LF : ascii := "010"%char.

(** [while(i < _argc) printf("^ %s\n", _argv[i++]);] with [n] the number
    of iterations left, [_argc - i]. *)
Fixpoint print_args (n : nat) (_argv : list (list ascii)) (i : nat) : M nat :=
  match n with
  | O => mret i
  | S n' =>
      p ← load InArgv _argv i;
      printf (lit "^ " ++ p ++ [LF]);;
      print_args n' _argv (S i)
  end.

(** [while(argv[i]) printf("> %s\n", argv[i++]);] with [slots] the part of
    [argv] from index [i] on: the loop runs until it meets a null slot and
    subscripts past the array when there is none. *)
Fixpoint print_child (slots : list (option (list ascii))) (i : nat) : M nat :=
  emit (EvRead Argv (Z.of_nat i));;
  match slots with
  | [] => raise (OutOfBounds Argv (Z.of_nat i))
  | None :: _ => mret i
  | Some s :: slots' =>
      emit (EvRead Argv (Z.of_nat i));;
      printf (lit "> " ++ s ++ [LF]);;
      print_child slots' (S i)
  end.

(** ** Steps 6 and 7: spawning and relaying the status *)

(** What the operating system answers to a process creation request. *)
Inductive spawn_outcome :=
| ChildExited (status : Z)
| SpawnFailed.

(** The environment of a run: the path of the running executable, the
    content of freshly allocated memory, and the fate of a process creation
    request for a command and its arguments. *)
Record world := {
  self_path : list ascii;
  heap_junk : nat → ascii;
  create_process : list ascii → list (list ascii) → spawn_outcome;
}.

(** The strings of a null-terminated pointer array, [slots] being the part
    from index [i] on. *)
Fixpoint read_vector (slots : list (option (list ascii))) (i : nat)
  : M (list (list ascii)) :=
  match slots with
  | [] => raise (OutOfBounds Argv (Z.of_nat i))
  | None :: _ => mret []
  | Some s :: slots' => v ← read_vector slots' (S i); mret (s :: v)
  end.

(** The [intptr_t] that a synchronous [_spawnvp] returns: the exit status
    of the new process, or -1 when the process cannot be created. *)
Definition status_of (o : spawn_outcome) : Z :=
  match o with
  | ChildExited status => status
  | SpawnFailed => (-1)%Z
  end.

(** [_spawnvp(_P_WAIT, cmd, argv)]: reads the null-terminated [argv], asks
    for the process and waits for it. *)
Definition _spawnvp (w : world) (cmd : option (list ascii))
    (argv : list (option (list ascii))) : M Z :=
  match cmd with
  | None => raise NullPointer
  | Some c =>
      args ← read_vector argv 0;
      emit (EvSpawn c args);;
      mret (status_of (create_process w c args))
  end.

(** Conversion of the [intptr_t] result to the [int] that [main] returns. *)
Definition to_int (z : Z) : Z := ((z + 2 ^ 31) mod 2 ^ 32 - 2 ^ 31)%Z.

(** The exit code the system records for a process whose [main] returns
    [r]: an unsigned 32-bit value. *)
Definition exit_code (r : Z) : Z := (r mod 2 ^ 32)%Z.

(** ** [main] *)

(** [NDEBUG] is the build-time switch: [true] for a release build. *)
Definition main (NDEBUG : bool) (w : world) (_argv : list (list ascii)) : M Z :=
  let _argc := length _argv in
  (if NDEBUG then mret 0 else
     printf (lit "argc = " ++ dec (Z.of_nat _argc) ++ [LF]);;
     print_args _argc _argv 0);;
  let root := malloc (heap_junk w) SZ in
  let root := GetModuleFileName (self_path w) root SZ in
  root ← truncate_root root;
  argv ← child_argv root _argv;
  (if NDEBUG then mret 0 else print_child argv 0);;
  cmd ← load Argv argv 0;
  r ← _spawnvp w cmd argv;
  mret (to_int r).

(** The observable part of a trace. *)
Definition visible (e : event) : bool :=
  match e with
  | EvPrint _ | EvSpawn _ _ => true
  | EvRead _ _ | EvWrite _ _ => false
  end.

Definition observable (tr : list event) : list event := List.filter visible tr.

(** ** The specification's words for the install root *)

Definition separators (s : list ascii) : nat := length (filter (.= sep) s).

(** The path split at every separator; a path with [n] separators has
    [n + 1] segments, some possibly empty. *)
Fixpoint segments (s : list ascii) : list (list ascii) :=
  match s with
  | [] => [[]]
  | c :: s' =>
      if decide (c = sep) then [] :: segments s'
      else match segments s' with
           | seg :: segs => (c :: seg) :: segs
           | [] => [[c]]
           end
  end.

(** Segments put back together with one separator between neighbours. *)
Fixpoint join (segs : list (list ascii)) : list ascii :=
  match segs with
  | [] => []
  | seg :: segs' =>
      match segs' with
      | [] => seg
      | _ :: _ => seg ++ sep :: join segs'
      end
  end.

(** "SelfPath with its last two path segments removed". *)
Definition spec_install_root (self : list ascii) : list ascii :=
  let segs := segments self in
  join (take (length segs - 2) segs).

(** InstallRoot as the program computes it: the string left in [root]. *)
Definition install_root (root : list ascii) : M (list ascii) :=
  root ← truncate_root root;
  read_cstr Root root.

(** A subscript of [root] inside a string of [n] characters. *)
Definition in_string (n : nat) (e : event) : bool :=
  match e with
  | EvRead Root i | EvWrite Root i => bool_decide (0 ≤ i < Z.of_nat n)%Z
  | _ => false
  end.

(** The number of entries of the child vector: the two derived paths and
    the arguments after the program name. *)
Definition entries (_argv : list (list ascii)) : nat := 2 + (length _argv - 1).

(** The diagnostic lines of a debug build, in the specification's words:
    the argument count and every incoming argument behind one marker, and
    every assembled child argument behind another. *)
Definition diagnostics_in (_argv : list (list ascii)) : list event :=
  EvPrint (lit "argc = " ++ dec (Z.of_nat (length _argv)) ++ [LF])
    :: ((λ p, EvPrint (lit "^ " ++ p ++ [LF])) <$> _argv).

Definition diagnostics_out (args : list (list ascii)) : list event :=
  (λ p, EvPrint (lit "> " ++ p ++ [LF])) <$> args.

(** InterpreterPath, ScriptPath and the strings of ChildArgv, as [main]
    forms them from an install root. *)
Definition interpreter_path (install : list ascii) : list ascii :=
  (snprintf SZ install ruby_suffix).1.

Definition script_path (install : list ascii) : list ascii :=
  (snprintf SZ install script_suffix).1.

Definition child_args (install : list ascii) (_argv : list (list ascii))
  : list (list ascii) :=
  interpreter_path install :: script_path install :: drop 1 _argv.

(** "ChildArgv equals [v]": the assembled array starts with the slots [v]. *)
Definition assembles (ruby script : list ascii) (_argv : list (list ascii))
    (v : list (option (list ascii))) : Prop :=
  ∃ tr argv,
    build_argv ruby script _argv = (tr, Ok argv) ∧ take (length v) argv = v.

(** The first [n] slots of an assembled vector. *)
Definition vector_prefix (n : nat) (m : M (list (option (list ascii))))
  : option (list (option (list ascii))) :=
  match m.2 with
  | Ok argv => Some (take n argv)
  | Fault _ => None
  end.

(** What a run sends to standard output. *)
Definition stdout (tr : list event) : list (list ascii) :=
  omap (λ e, match e with EvPrint s => Some s | _ => None end) tr.

(** ** Traces of the loops *)

(** Reads of [root] at [lo + n - 1] down to [lo]. *)
Definition reads (lo n : nat) : list event :=
  (λ k, EvRead Root (Z.of_nat k)) <$> reverse (seq lo n).

(** The subscripts of the copy loop. *)
Fixpoint copy_trace (n x i : nat) : list event :=
  match n with
  | O => []
  | S n' =>
      EvRead InArgv (Z.of_nat x) :: EvWrite Argv (Z.of_nat i)
        :: copy_trace n' (S x) (S i)
  end.

(** A computation that sends nothing to standard output. *)
Definition silent {A} (m : M A) : Prop := stdout m.1 = [].

(** ** Sample inputs *)

Definition sample_path : list ascii := lit "C:\app\bin\rockup.exe".

Definition sample_args : list (list ascii) :=
  [lit "launcher"; lit "foo.txt"; lit "--verbose"].

Definition sample_world (o : spawn_outcome) : world :=
  {| self_path := sample_path;
     heap_junk := λ _, "?"%char;
     create_process := λ _ _, o |}.

(** An argument list that fills [argv] to its last slot. *)
Definition crowded_args : list (list ascii) := replicate (SZ - 1) (lit "a").

(** An install root too long for the interpreter suffix to fit behind. *)
Definition long_root : list ascii := replicate (SZ - 7) "a"%char.

Definition long_world (o : spawn_outcome) : world :=
  {| self_path := long_root ++ lit "\b\c";
     heap_junk := λ _, "?"%char;
     create_process := λ _ _, o |}.

(** ** Further observations of a trace *)

(** A read of [root]. *)
Definition is_root_read (e : event) : bool :=
  match e with
  | EvRead Root _ => true
  | _ => false
  end.

(** A subscript of the incoming [_argv] that stays between the first
    forwarded argument and the last of [argc] arguments; every other event
    passes. *)
Definition input_read_ok (argc : nat) (e : event) : bool :=
  match e with
  | EvRead InArgv k => bool_decide (1 ≤ k < Z.of_nat argc)%Z
  | _ => true
  end.

(** A store into [argv] at a slot up to [n]; every other event passes. *)
Definition argv_write_upto (n : nat) (e : event) : bool :=
  match e with
  | EvWrite Argv k => bool_decide (0 ≤ k ≤ Z.of_nat n)%Z
  | _ => true
  end.

(** The process creation requests of a run. *)
Definition is_spawn (e : event) : bool :=
  match e with
  | EvSpawn _ _ => true
  | _ => false
  end.

Definition spawn_requests (tr : list event) : list event :=
  List.filter is_spawn tr.

(** The same environment with other content in fresh memory. *)
Definition with_heap (w : world) (junk : nat → ascii) : world :=
  {| self_path := self_path w;
     heap_junk := junk;
     create_process := create_process w |}.

(** A self path with a single separator. *)
Definition shallow_path : list ascii := lit "C:\rockup.exe".

(** An argument list with more entries than [argv] has slots. *)
Definition overfull_args : list (list ascii) := replicate (SZ + 3) (lit "a").

(** * Properties *)

(** Closes a decidable goal by evaluation. *)
Ltac by_compute := apply (bool_decide_unpack _); vm_compute; exact I.

(** ** Runs *)

Lemma bind_ok {A B} (f : A → M B) t a :
  (((t, Ok a) : M A) ≫= f) = (t ++ (f a).1, (f a).2).
Proof. done. Qed.

Lemma bind_ret {A B} (a : A) (f : A → M B) : (mret a ≫= f) = f a.
Proof. unfold mbind, M_bind, mret, M_ret. simpl. by destruct (f a). Qed.

Lemma load_run {A} b (a : list A) i x :
  a !! i = Some x → load b a i = ([EvRead b (Z.of_nat i)], Ok x).
Proof. intros H. unfold load. by rewrite H. Qed.

Lemma load_fault {A} b (a : list A) i :
  length a ≤ i →
  load b a i = ([EvRead b (Z.of_nat i)], Fault (OutOfBounds b (Z.of_nat i))).
Proof. intros H. unfold load. by rewrite (lookup_ge_None_2 a i). Qed.

Lemma store_run {A} b (a : list A) i x :
  i < length a → store b a i x = ([EvWrite b (Z.of_nat i)], Ok (<[i:=x]> a)).
Proof. intros H. unfold store. by rewrite decide_True. Qed.

Lemma store_fault {A} b (a : list A) i x :
  length a ≤ i →
  store b a i x = ([EvWrite b (Z.of_nat i)], Fault (OutOfBounds b (Z.of_nat i))).
Proof. intros H. unfold store. rewrite decide_False; [done | lia]. Qed.

(** ** Strings in buffers *)

Lemma strlen_from_app s rest :
  NUL ∉ s → strlen_from (s ++ NUL :: rest) = Some (length s).
Proof.
  induction s as [|c s IH]; intros Hs; cbn [strlen_from app length].
  - by rewrite decide_True.
  - apply not_elem_of_cons in Hs as [Hc Hs].
    rewrite decide_False by done. by rewrite IH.
Qed.

Lemma read_cstr_app b s rest :
  NUL ∉ s → read_cstr b (s ++ NUL :: rest) = ([], Ok s).
Proof.
  intros Hs. unfold read_cstr, strlen. rewrite strlen_from_app by done.
  rewrite bind_ret. by rewrite take_app_length.
Qed.

(** ** Segments *)

Lemma segments_nonempty s : segments s ≠ [].
Proof. destruct s as [|c s]; simpl; [done|]. case_decide; [done|]. by destruct (segments s). Qed.

Lemma segments_app_sep x y : segments (x ++ sep :: y) = segments x ++ segments y.
Proof.
  induction x as [|c x IH]; cbn [segments app].
  - by rewrite decide_True.
  - case_decide; [by rewrite IH|]. rewrite IH.
    pose proof (segments_nonempty x). by destruct (segments x).
Qed.

Lemma segments_no_sep s : sep ∉ s → segments s = [s].
Proof.
  induction s as [|c s IH]; intros Hs; simpl; [done|].
  apply not_elem_of_cons in Hs as [Hc Hs].
  rewrite decide_False by done. by rewrite IH.
Qed.

Lemma join_segments s : join (segments s) = s.
Proof.
  induction s as [|c s IH]; simpl; [done|].
  pose proof (segments_nonempty s) as Hne. case_decide as Hc.
  - subst c. simpl. rewrite IH. by destruct (segments s).
  - destruct (segments s) as [|seg segs]; [done|].
    simpl in *. destruct segs; by rewrite <- IH.
Qed.

Lemma spec_install_root_split a b c :
  sep ∉ b → sep ∉ c → spec_install_root (a ++ sep :: b ++ sep :: c) = a.
Proof.
  intros Hb Hc. unfold spec_install_root.
  rewrite segments_app_sep, segments_app_sep, (segments_no_sep b), (segments_no_sep c) by done.
  rewrite length_app. cbn [length app].
  replace (length (segments a) + 2 - 2) with (length (segments a)) by lia.
  rewrite take_app_length. apply join_segments.
Qed.

(** ** Separators *)

Lemma separators_cons c s :
  separators (c :: s) = (if decide (c = sep) then 1 else 0) + separators s.
Proof. unfold separators. rewrite filter_cons. by case_decide. Qed.

Lemma separators_zero s : separators s = 0 → sep ∉ s.
Proof.
  induction s as [|c s IH]; [intros _; apply not_elem_of_nil|].
  rewrite separators_cons. case_decide; [lia|]. intros H0.
  apply not_elem_of_cons. split; [congruence | by apply IH].
Qed.

(** The last separator of a path that has one. *)
Lemma last_separator s :
  1 ≤ separators s →
  ∃ x y, s = x ++ sep :: y ∧ (sep ∉ y) ∧ S (separators x) = separators s.
Proof.
  induction s as [|c s IH]; [unfold separators; simpl; lia|].
  rewrite separators_cons. intros Hn.
  destruct (decide (1 ≤ separators s)) as [Hs|Hs].
  - destruct (IH Hs) as (x & y & -> & Hy & Hx).
    exists (c :: x), y. split; [done|]. split; [done|].
    rewrite separators_cons. lia.
  - assert (separators s = 0) as H0 by lia.
    rewrite H0 in *. case_decide as Hc; [|lia]. subst c.
    exists [], s. split; [done|]. split; [by apply separators_zero|].
    unfold separators. simpl. lia.
Qed.

(** A path with two separators ends in two segments free of separators. *)
Lemma last_two_separators s :
  2 ≤ separators s →
  ∃ a b c, s = a ++ sep :: b ++ sep :: c ∧ (sep ∉ b) ∧ (sep ∉ c).
Proof.
  intros Hn. destruct (last_separator s) as (x & c & -> & Hc & Hx); [lia|].
  destruct (last_separator x) as (a & b & -> & Hb & _); [lia|].
  exists a, b, c. by rewrite <- app_assoc.
Qed.

(** ** The backward scan *)

Lemma reads_S lo n : reads lo (S n) = EvRead Root (Z.of_nat (lo + n)) :: reads lo n.
Proof. unfold reads. by rewrite seq_S, reverse_snoc. Qed.

(** Started just after a separator-free stretch [y] that follows a
    separator, the scan reads [y] backwards and stops on that separator. *)
Lemma scan_back_run x y z :
  sep ∉ y →
  scan_back (x ++ sep :: y ++ z) (length x + S (length y))
  = (reads (length x) (S (length y)), Ok (length x)).
Proof.
  revert z. induction y as [|c y IH] using rev_ind; intros z Hy.
  - cbn [length app]. rewrite Nat.add_1_r. cbn [scan_back].
    rewrite (load_run _ _ _ sep) by by apply list_lookup_middle.
    rewrite bind_ok, decide_True by done.
    rewrite reads_S, Nat.add_0_r. done.
  - apply not_elem_of_app in Hy as [Hy Hc%not_elem_of_cons].
    destruct Hc as [Hc _].
    rewrite length_app. cbn [length].
    replace (length x + S (length y + 1)) with (S (length x + S (length y))) by lia.
    cbn [scan_back]. rewrite <- (app_assoc y [c] z). cbn [app].
    rewrite (load_run _ _ _ c).
    + rewrite bind_ok, decide_False by congruence. rewrite (IH (c :: z)) by done.
      replace (S (length y + 1)) with (S (S (length y))) by lia.
      by rewrite (reads_S _ (S (length y))).
    + replace (x ++ sep :: y ++ c :: z) with ((x ++ sep :: y) ++ c :: z)
        by by rewrite <- app_assoc.
      apply list_lookup_middle. rewrite length_app. simpl. lia.
Qed.

(** With no separator before index [length y], the scan walks off the
    front of the array. *)
Lemma scan_back_off y z :
  sep ∉ y →
  scan_back (y ++ z) (length y)
  = (reads 0 (length y) ++ [EvRead Root (-1)%Z], Fault (OutOfBounds Root (-1)%Z)).
Proof.
  revert z. induction y as [|c y IH] using rev_ind; intros z Hy; [done|].
  apply not_elem_of_app in Hy as [Hy Hc%not_elem_of_cons].
  destruct Hc as [Hc _].
  rewrite length_app. cbn [length]. rewrite Nat.add_1_r. cbn [scan_back].
  rewrite <- (app_assoc y [c] z). cbn [app].
  rewrite (load_run _ _ _ c) by by apply list_lookup_middle.
  rewrite bind_ok, decide_False by congruence.
  rewrite (IH (c :: z)) by done. by rewrite reads_S.
Qed.

(** The whole truncation step on a buffer whose string ends in two
    separator-free segments [b] and [c]. *)
Lemma truncate_root_run a b c rest :
  NUL ∉ a ++ sep :: b ++ sep :: c → sep ∉ b → sep ∉ c →
  truncate_root ((a ++ sep :: b ++ sep :: c) ++ NUL :: rest)
  = (reads (length a + S (length b)) (S (length c))
       ++ reads (length a) (S (length b)) ++ [EvWrite Root (Z.of_nat (length a))],
     Ok (a ++ NUL :: b ++ sep :: c ++ NUL :: rest)).
Proof.
  intros Hnul Hb Hc. unfold truncate_root, strlen.
  rewrite strlen_from_app by done. rewrite bind_ret.
  set (root := (a ++ sep :: b ++ sep :: c) ++ NUL :: rest).
  assert (root = (a ++ sep :: b) ++ sep :: c ++ NUL :: rest) as E1.
  { unfold root. by rewrite <- !app_assoc; cbn [app]; rewrite <- !app_assoc. }
  assert (root = a ++ sep :: b ++ sep :: c ++ NUL :: rest) as E2.
  { rewrite E1. by rewrite <- app_assoc. }
  assert (length (a ++ sep :: b ++ sep :: c)
          = length (a ++ sep :: b) + S (length c)) as ->.
  { rewrite !length_app. cbn [length]. rewrite length_app. cbn [length]. lia. }
  pose proof (scan_back_run (a ++ sep :: b) c (NUL :: rest) Hc) as S1.
  pose proof (scan_back_run a b (sep :: c ++ NUL :: rest) Hb) as S2.
  rewrite <- E1 in S1. rewrite <- E2 in S2.
  assert (length (a ++ sep :: b) = length a + S (length b)) as El.
  { rewrite length_app. cbn [length]. lia. }
  rewrite S1, bind_ok, El, S2, bind_ok, store_run.
  - cbn [fst snd]. f_equal. f_equal. rewrite E2.
    by rewrite (insert_app_r_alt a _ (length a)), Nat.sub_diag.
  - rewrite E2, length_app. cbn [length]. lia.
Qed.

Lemma reads_in_string lo n m :
  lo + n ≤ m → forallb (in_string m) (reads lo n) = true.
Proof.
  induction n as [|n IH]; intros Hm; [done|].
  rewrite reads_S. cbn [forallb in_string].
  rewrite IH by lia. rewrite bool_decide_eq_true_2; [done | lia].
Qed.

(** Fewer than two separators: the scan leaves the array at index -1. *)
Lemma truncate_root_off_front s rest :
  NUL ∉ s → separators s < 2 →
  ∃ tr, truncate_root (s ++ NUL :: rest) = (tr, Fault (OutOfBounds Root (-1)%Z)).
Proof.
  intros Hnul Hn. unfold truncate_root, strlen.
  rewrite strlen_from_app by done. rewrite bind_ret.
  destruct (decide (1 ≤ separators s)) as [H1|H0].
  - destruct (last_separator s H1) as (x & y & -> & Hy & Hx).
    assert (sep ∉ x) as Hx' by (apply separators_zero; lia).
    pose proof (scan_back_run x y (NUL :: rest) Hy) as S1.
    pose proof (scan_back_off x (sep :: y ++ NUL :: rest) Hx') as S2.
    assert ((x ++ sep :: y) ++ NUL :: rest = x ++ sep :: y ++ NUL :: rest) as E
      by by rewrite <- app_assoc.
    assert (length (x ++ sep :: y) = length x + S (length y)) as El
      by (rewrite length_app; cbn [length]; lia).
    rewrite E, El, S1, bind_ok, S2. eauto.
  - assert (sep ∉ s) as Hs by (apply separators_zero; lia).
    rewrite (scan_back_off s (NUL :: rest) Hs). eauto.
Qed.

(** C2. For every self-path string with at least two path separators, the
    install root left by the backward truncation step is that path with its
    last two path segments removed. *)
Theorem install_root_is_grandparent (s rest : list ascii) :
  NUL ∉ s → 2 ≤ separators s →
  (install_root (s ++ NUL :: rest)).2 = Ok (spec_install_root s).
Proof.
  intros Hnul Hn.
  destruct (last_two_separators s Hn) as (a & b & c & -> & Hb & Hc).
  unfold install_root. rewrite truncate_root_run, bind_ok by done.
  rewrite read_cstr_app, spec_install_root_split; [done..|].
  by apply not_elem_of_app in Hnul as [? _].
Qed.

Lemma install_root_is_grandparent_witness :
  (NUL ∉ lit "C:\app\bin\rockup.exe") ∧
  2 ≤ separators (lit "C:\app\bin\rockup.exe") ∧
  (install_root (lit "C:\app\bin\rockup.exe" ++ NUL :: lit "??")).2
  = Ok (lit "C:\app").
Proof.
  assert (NUL ∉ lit "C:\app\bin\rockup.exe") as Hnul
    by by_compute.
  assert (2 ≤ separators (lit "C:\app\bin\rockup.exe")) as Hn
    by by_compute.
  split; [exact Hnul|]. split; [exact Hn|].
  exact (install_root_is_grandparent _ (lit "??") Hnul Hn).
Defined.

(** C6. For every self-path string with at least two path separators, the
    backward truncation scan ends without fault, and every subscript it
    applies to [root] lies inside the string. *)
Theorem truncation_stays_in_bounds (s rest : list ascii) :
  NUL ∉ s → 2 ≤ separators s →
  ∃ tr root',
    truncate_root (s ++ NUL :: rest) = (tr, Ok root') ∧
    forallb (in_string (length s)) tr = true.
Proof.
  intros Hnul Hn.
  destruct (last_two_separators s Hn) as (a & b & c & -> & Hb & Hc).
  rewrite truncate_root_run by done. eexists _, _. split; [done|].
  assert (length (a ++ sep :: b ++ sep :: c)
          = length a + S (length b) + S (length c)) as ->.
  { rewrite !length_app. cbn [length]. rewrite length_app. cbn [length]. lia. }
  rewrite !forallb_app, !reads_in_string by lia.
  cbn [forallb in_string]. rewrite bool_decide_eq_true_2; [done | lia].
Qed.

Lemma truncation_stays_in_bounds_witness :
  (NUL ∉ lit "C:\app\bin\rockup.exe") ∧
  2 ≤ separators (lit "C:\app\bin\rockup.exe") ∧
  ∃ tr root',
    truncate_root (lit "C:\app\bin\rockup.exe" ++ NUL :: lit "??") = (tr, Ok root') ∧
    forallb (in_string (length (lit "C:\app\bin\rockup.exe"))) tr = true.
Proof.
  assert (NUL ∉ lit "C:\app\bin\rockup.exe") as Hnul
    by by_compute.
  assert (2 ≤ separators (lit "C:\app\bin\rockup.exe")) as Hn
    by by_compute.
  split; [exact Hnul|]. split; [exact Hn|].
  exact (truncation_stays_in_bounds _ (lit "??") Hnul Hn).
Defined.

(** ** The derived paths *)

Lemma SZ_value : Z.of_nat SZ = 32767%Z.
Proof. done. Qed.

Lemma ruby_suffix_length : length (lit ruby_suffix) = 18.
Proof. done. Qed.

Lemma script_suffix_length : length (lit script_suffix) = 16.
Proof. done. Qed.

(** Both paths are the first [SZ - 1] characters of the concatenations. *)
Lemma derive_paths_run r rest :
  NUL ∉ r →
  derive_paths (r ++ NUL :: rest)
  = ([], Ok (take (SZ - 1) (r ++ lit ruby_suffix),
             take (SZ - 1) (r ++ lit script_suffix))).
Proof.
  intros Hr. unfold derive_paths. by rewrite !read_cstr_app, !bind_ok.
Qed.

(** ** The child argument vector *)

Lemma copy_args_run n : ∀ _argv x argv i,
  (0 < n → x + n ≤ length _argv) → i + n ≤ length argv →
  copy_args n _argv x argv i
  = (copy_trace n x i,
     Ok (take i argv ++ (Some <$> take n (drop x _argv)) ++ drop (i + n) argv,
         i + n)).
Proof.
  induction n as [|n IH]; intros _argv x argv i Hx Hi.
  - cbn [copy_args copy_trace]. rewrite take_0, Nat.add_0_r.
    cbn [fmap list_fmap app]. by rewrite take_drop.
  - cbn [copy_args copy_trace].
    destruct (lookup_lt_is_Some_2 _argv x) as [p Hp]; [lia|].
    assert (0 < n → S x + n ≤ length _argv) by lia.
    rewrite (load_run _ _ _ p), bind_ok by done.
    rewrite store_run, bind_ok by lia. cbn [fst snd].
    rewrite IH by (rewrite ?length_insert; first [done | lia]). cbn [fst snd app].
    f_equal. f_equal. f_equal; [|lia].
    rewrite (drop_S _ p x) by done. cbn [take fmap list_fmap].
    rewrite drop_insert_lt by lia.
    rewrite (take_S_r _ i (Some p)) by (apply list_lookup_insert_eq; lia).
    rewrite take_insert_ge by lia.
    rewrite <- app_assoc. cbn [app].
    by replace (S i + n) with (i + S n) by lia.
Qed.

Lemma build_argv_run ruby script _argv :
  entries _argv ≤ SZ →
  build_argv ruby script _argv
  = (EvWrite Argv 0 :: EvWrite Argv 1 :: copy_trace (length _argv - 1) 1 2,
     Ok ((Some <$> ruby :: script :: drop 1 _argv)
           ++ replicate (SZ - entries _argv) None)).
Proof.
  unfold entries. intros Hn. unfold build_argv, calloc.
  rewrite store_run, bind_ok by (rewrite length_replicate; lia).
  rewrite store_run, bind_ok by (rewrite length_insert, length_replicate; lia).
  rewrite copy_args_run; [| lia | rewrite !length_insert, length_replicate; lia].
  rewrite bind_ok. cbn [fst snd app]. rewrite app_nil_r.
  unfold mret, M_ret. cbn [snd]. do 2 f_equal.
  destruct SZ as [|[|n]] eqn:E; [lia..|]. cbn [replicate].
  cbn [insert list_insert take fmap list_fmap app]. rewrite take_0. cbn [app].
  rewrite (take_ge (drop 1 _argv)) by (rewrite length_drop; lia).
  do 3 f_equal. cbn [drop plus]. by rewrite drop_replicate.
Qed.

Lemma child_argv_run r rest _argv :
  NUL ∉ r →
  child_argv (r ++ NUL :: rest) _argv
  = build_argv (take (SZ - 1) (r ++ lit ruby_suffix))
      (take (SZ - 1) (r ++ lit script_suffix)) _argv.
Proof.
  intros Hr. unfold child_argv.
  rewrite derive_paths_run, bind_ok by done. cbn [fst snd app].
  by destruct (build_argv _ _ _).
Qed.

(** A vector of non-null slots followed by a null slot reads back as its
    strings. *)
Lemma read_vector_run args rest i :
  read_vector ((Some <$> args) ++ None :: rest) i = ([], Ok args).
Proof.
  revert i. induction args as [|p args IH]; intros i; [done|].
  cbn [fmap list_fmap app read_vector]. by rewrite IH, bind_ok.
Qed.

(** An array full of non-null slots has no terminator to stop at. *)
Lemma read_vector_full args i :
  read_vector (Some <$> args) i
  = ([], Fault (OutOfBounds Argv (Z.of_nat (i + length args)))).
Proof.
  revert i. induction args as [|p args IH]; intros i.
  - cbn. by rewrite Nat.add_0_r.
  - cbn [fmap list_fmap read_vector length]. rewrite IH.
    by replace (S i + length args) with (i + S (length args)) by lia.
Qed.

(** ** Diagnostics *)

Lemma observable_app t1 t2 : observable (t1 ++ t2) = observable t1 ++ observable t2.
Proof. apply List.filter_app. Qed.

Lemma print_args_run n : ∀ _argv i,
  i + n ≤ length _argv →
  ∃ tr, print_args n _argv i = (tr, Ok (i + n)) ∧
        observable tr
        = (λ p, EvPrint (lit "^ " ++ p ++ [LF])) <$> take n (drop i _argv).
Proof.
  induction n as [|n IH]; intros _argv i Hi.
  - exists []. rewrite take_0, Nat.add_0_r. done.
  - destruct (lookup_lt_is_Some_2 _argv i) as [p Hp]; [lia|].
    destruct (IH _argv (S i)) as (tr & Htr & Hobs); [lia|].
    cbn [print_args]. rewrite (load_run _ _ _ p), bind_ok by done.
    unfold printf, emit. rewrite bind_ok, Htr. cbn [fst snd].
    eexists. split; [by replace (S i + n) with (i + S n) by lia|].
    rewrite (drop_S _ p i) by done. cbn [take fmap list_fmap].
    rewrite <- Hobs. done.
Qed.

Lemma print_child_run args rest i :
  ∃ tr, print_child ((Some <$> args) ++ None :: rest) i
        = (tr, Ok (i + length args)) ∧
        observable tr = (λ p, EvPrint (lit "> " ++ p ++ [LF])) <$> args.
Proof.
  revert i. induction args as [|p args IH]; intros i.
  - eexists. cbn [fmap list_fmap app print_child length].
    unfold emit. rewrite bind_ok, Nat.add_0_r. done.
  - destruct (IH (S i)) as (tr & Htr & Hobs).
    cbn [fmap list_fmap app print_child length].
    unfold printf, emit. rewrite !bind_ok, Htr. cbn [fst snd].
    eexists. split; [by replace (S i + length args) with (i + S (length args)) by lia|].
    cbn [app]. rewrite <- Hobs. done.
Qed.

(** ** The self path in the buffer *)

Lemma GetModuleFileName_fits s buf n :
  length s < n → length buf = n →
  ∃ rest, GetModuleFileName s buf n = s ++ NUL :: rest.
Proof.
  intros Hs Hb. unfold GetModuleFileName.
  rewrite (take_ge s) by lia.
  rewrite (take_ge (s ++ [NUL])) by (rewrite length_app; simpl; lia).
  rewrite <- app_assoc. eauto.
Qed.

Lemma length_malloc junk n : length (malloc junk n) = n.
Proof. unfold malloc. by rewrite length_fmap, length_seq. Qed.

(** ** A whole run *)

(** A run from a self path that fits [root] and ends in two separator-free
    segments, with an argument list that leaves room for the terminator. *)
Lemma main_run nd w _argv a b c :
  self_path w = a ++ sep :: b ++ sep :: c →
  NUL ∉ self_path w → sep ∉ b → sep ∉ c →
  length (self_path w) < SZ → entries _argv < SZ →
  let ruby := take (SZ - 1) (a ++ lit ruby_suffix) in
  let script := take (SZ - 1) (a ++ lit script_suffix) in
  let args := ruby :: script :: drop 1 _argv in
  ∃ tr,
    main nd w _argv
    = (tr, Ok (to_int (status_of (create_process w ruby args)))) ∧
    observable tr
    = (if nd then [] else diagnostics_in _argv)
        ++ (if nd then [] else diagnostics_out args)
        ++ [EvSpawn ruby args].
Proof.
  intros Hs Hnul Hb Hc Hlen Hn ruby script args.
  assert (∃ t0, (if nd then mret 0 else
                   printf (lit "argc = " ++ dec (Z.of_nat (length _argv)) ++ [LF]);;
                   print_args (length _argv) _argv 0)
                = (t0, Ok (if nd then 0 else length _argv)) ∧
                observable t0 = (if nd then [] else diagnostics_in _argv))
    as (t0 & E0 & O0).
  { destruct nd; [by exists []|].
    destruct (print_args_run (length _argv) _argv 0) as (tr & Htr & Hobs); [lia|].
    unfold printf, emit. rewrite bind_ok, Htr. eexists. split; [done|].
    cbn [fst app observable List.filter visible]. fold (observable tr).
    rewrite Hobs. unfold diagnostics_in. by rewrite drop_0, firstn_all. }
  destruct (GetModuleFileName_fits (self_path w) (malloc (heap_junk w) SZ) SZ)
    as [rest Eroot]; [done | apply length_malloc |].
  assert (NUL ∉ a) as Ha by (rewrite Hs in Hnul; by apply not_elem_of_app in Hnul as [? _]).
  pose proof (build_argv_run ruby script _argv ltac:(lia)) as Ebuild.
  set (filler := replicate (SZ - entries _argv) None) in Ebuild.
  assert (∃ rest', filler = None :: rest') as [rest' Efill].
  { unfold filler. destruct (SZ - entries _argv) eqn:E; [lia|]. cbn. eauto. }
  rewrite Efill in Ebuild.
  assert (∃ t1, (if nd then mret 0 else
                   print_child ((Some <$> args) ++ None :: rest') 0)
                = (t1, Ok (if nd then 0 else length args)) ∧
                observable t1 = (if nd then [] else diagnostics_out args))
    as (t1 & E1 & O1).
  { destruct nd; [by exists []|].
    destruct (print_child_run args rest' 0) as (tr & Htr & Hobs). eauto. }
  unfold main. rewrite E0, bind_ok. cbn [fst snd].
  rewrite Eroot, Hs, truncate_root_run, bind_ok by (rewrite <- ?Hs; done).
  cbn [fst snd]. rewrite child_argv_run by done.
  fold ruby script. rewrite Ebuild, bind_ok. cbn [fst snd].
  change (ruby :: script :: drop 1 _argv) with args.
  rewrite E1, bind_ok. cbn [fst snd].
  rewrite (load_run _ _ _ (Some ruby)) by done. rewrite bind_ok. cbn [fst snd].
  unfold _spawnvp. rewrite read_vector_run, bind_ok. unfold emit.
  rewrite !bind_ok. cbn [fst snd]. fold args. eexists. split; [done|].
  rewrite !observable_app, O0, O1. f_equal.
  assert (∀ n x i, observable (copy_trace n x i) = []) as Hcopy.
  { induction n as [|n IH]; intros x i; [done|]. cbn. apply IH. }
  assert (∀ lo n, observable (reads lo n) = []) as Hreads.
  { intros lo n. induction n as [|n IH]; [done|]. by rewrite reads_S. }
  rewrite !Hreads. cbn [app observable List.filter visible].
  fold (observable (copy_trace (length _argv - 1) 1 2)). rewrite Hcopy.
  done.
Qed.

(** ** The claims about the child argument vector *)

Lemma copy_trace_writes n : ∀ x i j,
  EvWrite Argv (Z.of_nat j) ∈ copy_trace n x i → i ≤ j < i + n.
Proof.
  induction n as [|n IH]; intros x i j; cbn [copy_trace].
  - by intros ?%elem_of_nil.
  - intros [?|[E|H]%elem_of_cons]%elem_of_cons; [done | | apply IH in H; lia].
    injection E as E. lia.
Qed.

(** C1, as the code has it. For every input argument vector
    [p0, p1, ..., pn] whose entries (the two derived paths and p1 ... pn)
    leave a free slot in the [SZ]-slot array, the assembled child vector is
    [InterpreterPath, ScriptPath, p1, ..., pn, NULL]. *)
Theorem child_vector_layout (ruby script p0 : list ascii) (ps : list (list ascii)) :
  length ps + 2 < SZ →
  assembles ruby script (p0 :: ps) ((Some <$> ruby :: script :: ps) ++ [None]).
Proof.
  intros Hn. unfold assembles.
  rewrite build_argv_run by (unfold entries; cbn [length]; lia).
  eexists _, _. split; [done|].
  unfold entries. cbn [length drop].
  destruct (SZ - (2 + (S (length ps) - 1))) as [|k] eqn:E; [lia|].
  cbn [replicate]. rewrite drop_0.
  set (used := Some <$> ruby :: script :: ps).
  replace (used ++ None :: replicate k None)
    with ((used ++ [None]) ++ replicate k None) by by rewrite <- app_assoc.
  by rewrite take_app_length.
Qed.

Lemma child_vector_layout_witness :
  length [lit "foo.txt"; lit "--verbose"] + 2 < SZ ∧
  assembles (lit "C:\app\ruby\bin\ruby.exe") (lit "C:\app\ruby\bin\rockup")
    sample_args
    [Some (lit "C:\app\ruby\bin\ruby.exe"); Some (lit "C:\app\ruby\bin\rockup");
     Some (lit "foo.txt"); Some (lit "--verbose"); None].
Proof.
  assert (length [lit "foo.txt"; lit "--verbose"] + 2 < SZ) as Hn by by_compute.
  split; [exact Hn|].
  exact (child_vector_layout (lit "C:\app\ruby\bin\ruby.exe")
           (lit "C:\app\ruby\bin\rockup") (lit "launcher") _ Hn).
Defined.

(** When the entries fill the array, nothing is left for a terminator. *)
Lemma full_vector_unterminated ruby script _argv :
  entries _argv = SZ →
  ¬ assembles ruby script _argv
      ((Some <$> ruby :: script :: drop 1 _argv) ++ [None]).
Proof.
  intros Hfull (tr & argv & Hrun & Htake).
  rewrite build_argv_run in Hrun by lia.
  apply (f_equal snd) in Hrun. cbn [snd] in Hrun.
  assert (length argv = SZ) as Hlen.
  { assert (Ok_length : ∀ x y : list (option (list ascii)),
              Ok x = Ok y → length x = length y) by (intros ?? [= ->]; done).
    apply Ok_length in Hrun. rewrite <- Hrun.
    rewrite length_app, length_fmap, length_replicate. cbn [length].
    rewrite length_drop. unfold entries in *. lia. }
  apply (f_equal length) in Htake.
  rewrite length_take, !length_app, length_fmap in Htake.
  cbn [length] in Htake. rewrite length_drop in Htake.
  unfold entries in Hfull. lia.
Qed.

(** C1 fails as stated: with 32766 input arguments the array is full of
    non-null slots and has no terminator. *)
Lemma child_vector_unterminated :
  ¬ assembles (lit "r") (lit "s") crowded_args
      ((Some <$> lit "r" :: lit "s" :: drop 1 crowded_args) ++ [None]).
Proof.
  apply full_vector_unterminated.
  unfold entries, crowded_args. rewrite length_replicate.
  pose proof SZ_value. lia.
Qed.

(** There the spawn would read past the last slot of the array. *)
Lemma crowded_vector_overruns :
  ∃ tr argv,
    build_argv (lit "r") (lit "s") crowded_args = (tr, Ok argv) ∧
    read_vector argv 0 = ([], Fault (OutOfBounds Argv (Z.of_nat SZ))).
Proof.
  assert (entries crowded_args = SZ) as Hfull.
  { unfold entries, crowded_args. rewrite length_replicate.
    pose proof SZ_value. lia. }
  rewrite build_argv_run by lia. eexists _, _. split; [done|].
  rewrite Hfull, Nat.sub_diag. cbn [replicate]. rewrite app_nil_r.
  rewrite read_vector_full. cbn [length].
  rewrite length_drop. unfold entries in Hfull. do 3 f_equal; lia.
Qed.

(** C10. No store writes the terminator: whenever the entry count is below
    the capacity [SZ], every store of the assembly hits a slot before the
    entry count, every slot from there on still holds the null that
    [calloc] put there, and the array reads back as a null-terminated
    vector. *)
Theorem terminator_comes_from_calloc (ruby script : list ascii)
    (_argv : list (list ascii)) :
  entries _argv < SZ →
  ∃ tr argv,
    build_argv ruby script _argv = (tr, Ok argv) ∧
    length argv = SZ ∧
    (∀ j, EvWrite Argv (Z.of_nat j) ∈ tr → j < entries _argv) ∧
    (∀ j, entries _argv ≤ j < SZ → argv !! j = Some None) ∧
    read_vector argv 0 = ([], Ok (ruby :: script :: drop 1 _argv)).
Proof.
  intros Hn. rewrite build_argv_run by lia. eexists _, _. split; [done|].
  assert (length (Some <$> ruby :: script :: drop 1 _argv) = entries _argv) as Hused.
  { rewrite length_fmap. cbn [length]. rewrite length_drop. unfold entries. lia. }
  repeat split.
  - rewrite length_app, Hused, length_replicate. lia.
  - intros j [E|[E|H]%elem_of_cons]%elem_of_cons.
    + injection E as E. unfold entries. lia.
    + injection E as E. unfold entries. lia.
    + apply copy_trace_writes in H. unfold entries. lia.
  - intros j Hj. rewrite lookup_app_r by (rewrite Hused; lia).
    rewrite Hused. apply lookup_replicate_2. lia.
  - destruct (SZ - entries _argv) as [|k] eqn:E; [lia|].
    cbn [replicate]. apply read_vector_run.
Qed.

Lemma terminator_comes_from_calloc_witness :
  entries sample_args < SZ ∧
  ∃ tr argv,
    build_argv (lit "r") (lit "s") sample_args = (tr, Ok argv) ∧
    length argv = SZ ∧
    (∀ j, EvWrite Argv (Z.of_nat j) ∈ tr → j < entries sample_args) ∧
    (∀ j, entries sample_args ≤ j < SZ → argv !! j = Some None) ∧
    read_vector argv 0
    = ([], Ok (lit "r" :: lit "s" :: drop 1 sample_args)).
Proof.
  assert (entries sample_args < SZ) as Hn by by_compute.
  split; [exact Hn|].
  exact (terminator_comes_from_calloc (lit "r") (lit "s") sample_args Hn).
Defined.

(** C8, as the code has it. Invoked as [launcher foo.txt --verbose] with
    install root [/opt/app], the assembled child vector is
    ["/opt/app\ruby\bin\ruby.exe", "/opt/app\ruby\bin\rockup", "foo.txt",
    "--verbose", NULL]: the suffixes carry backslashes and the interpreter
    is [ruby.exe]. *)
Theorem scenario_child_vector (rest : list ascii) :
  vector_prefix 5 (child_argv (lit "/opt/app" ++ NUL :: rest) sample_args)
  = Some [Some (lit "/opt/app\ruby\bin\ruby.exe");
          Some (lit "/opt/app\ruby\bin\rockup");
          Some (lit "foo.txt"); Some (lit "--verbose"); None].
Proof.
  rewrite child_argv_run by by_compute.
  unfold vector_prefix. rewrite build_argv_run by by_compute.
  cbn [snd]. by vm_compute.
Qed.

(** C8 fails as stated: no buffer holding the install root [/opt/app]
    yields the forward-slash paths of the scenario. *)
Lemma scenario_paths_differ :
  ¬ ∃ rest,
      vector_prefix 5 (child_argv (lit "/opt/app" ++ NUL :: rest) sample_args)
      = Some [Some (lit "/opt/app/ruby/bin/ruby");
              Some (lit "/opt/app/ruby/bin/rockup");
              Some (lit "foo.txt"); Some (lit "--verbose"); None].
Proof.
  intros [rest H]. rewrite child_argv_run in H by by_compute.
  unfold vector_prefix in H. rewrite build_argv_run in H by by_compute.
  cbn [snd] in H. vm_compute in H. discriminate H.
Qed.

(** ** The claims about the derived paths *)

Lemma snprintf_fits n s suffix :
  length s + length (lit suffix) < n →
  (snprintf n s suffix).1 = s ++ lit suffix.
Proof.
  intros Hn. unfold snprintf. cbn [fst].
  apply take_ge. rewrite length_app. lia.
Qed.

Lemma snprintf_cut n s suffix :
  0 < n → n ≤ length s + length (lit suffix) →
  length (snprintf n s suffix).1 = n - 1 ∧
  (snprintf n s suffix).1 ≠ s ++ lit suffix.
Proof.
  intros Hpos Hn. unfold snprintf. cbn [fst].
  assert (length (take (n - 1) (s ++ lit suffix)) = n - 1) as Hlen
    by (rewrite length_take, length_app; lia).
  split; [done|]. intros E. rewrite E, length_app in Hlen. lia.
Qed.

(** C3, as the code has it. For every InstallRoot string that leaves room
    for the longer suffix within [SZ - 1] characters, InterpreterPath and
    ScriptPath are exactly InstallRoot followed by their fixed suffixes. *)
Theorem derived_paths_are_concatenations (r rest : list ascii) :
  NUL ∉ r → length r + length (lit ruby_suffix) < SZ →
  derive_paths (r ++ NUL :: rest)
  = ([], Ok (r ++ lit ruby_suffix, r ++ lit script_suffix)).
Proof.
  intros Hr Hn. rewrite derive_paths_run by done.
  rewrite ruby_suffix_length in Hn.
  pose proof (snprintf_fits SZ r ruby_suffix) as E1.
  pose proof (snprintf_fits SZ r script_suffix) as E2.
  unfold snprintf in E1, E2. cbn [fst] in E1, E2.
  rewrite E1, E2; [done | rewrite script_suffix_length | rewrite ruby_suffix_length]; lia.
Qed.

Lemma derived_paths_are_concatenations_witness :
  (NUL ∉ lit "C:\app") ∧
  length (lit "C:\app") + length (lit ruby_suffix) < SZ ∧
  derive_paths (lit "C:\app" ++ NUL :: lit "bin\rockup.exe")
  = ([], Ok (lit "C:\app\ruby\bin\ruby.exe", lit "C:\app\ruby\bin\rockup")).
Proof.
  assert (NUL ∉ lit "C:\app") as Hr by by_compute.
  assert (length (lit "C:\app") + length (lit ruby_suffix) < SZ) as Hn
    by by_compute.
  split; [exact Hr|]. split; [exact Hn|].
  exact (derived_paths_are_concatenations _ (lit "bin\rockup.exe") Hr Hn).
Defined.

Lemma long_root_length : length long_root = SZ - 7.
Proof. unfold long_root. by rewrite length_replicate. Qed.

Lemma long_root_no_NUL : NUL ∉ long_root.
Proof. by intros ?%elem_of_replicate_inv. Qed.

(** C3 fails as stated: behind an install root of 32760 characters, a
    string that fits the [SZ]-character [root] buffer, the derived paths are
    not the concatenations. *)
Lemma long_root_paths_differ :
  ¬ (NUL ∉ long_root →
     length (long_root ++ NUL :: replicate 6 "?"%char) = SZ →
     derive_paths (long_root ++ NUL :: replicate 6 "?"%char)
     = ([], Ok (long_root ++ lit ruby_suffix, long_root ++ lit script_suffix))).
Proof.
  pose proof SZ_value as HSZ. intros Hclaim.
  assert (length (long_root ++ NUL :: replicate 6 "?"%char) = SZ) as Hfits.
  { rewrite length_app, long_root_length. cbn [length replicate]. lia. }
  specialize (Hclaim long_root_no_NUL Hfits).
  rewrite derive_paths_run in Hclaim by apply long_root_no_NUL.
  apply (f_equal (λ m : M (list ascii * list ascii),
    match m.2 with Ok p => length p.1 | Fault _ => 0 end)) in Hclaim.
  cbn [fst snd] in Hclaim.
  rewrite length_take, !length_app, long_root_length, ruby_suffix_length in Hclaim.
  lia.
Qed.

(** ** Whole runs from a well-formed deployment *)

Lemma to_int_in_range z : (- 2 ^ 31 ≤ z < 2 ^ 31)%Z → to_int z = z.
Proof. intros Hz. unfold to_int. rewrite Z.mod_small; lia. Qed.

Lemma exit_code_to_int z : (0 ≤ z < 2 ^ 32)%Z → exit_code (to_int z) = z.
Proof.
  intros Hz. unfold exit_code, to_int.
  rewrite Zminus_mod_idemp_l.
  replace (z + 2 ^ 31 - 2 ^ 31)%Z with z by lia.
  by apply Z.mod_small.
Qed.

Section WholeRun.
Variables (nd : bool) (w : world) (_argv : list (list ascii)).
Hypothesis no_NUL : NUL ∉ self_path w.
Hypothesis two_separators : 2 ≤ separators (self_path w).
Hypothesis path_fits : length (self_path w) < SZ.
Hypothesis room_left : entries _argv < SZ.

Let install := spec_install_root (self_path w).
Let ruby := interpreter_path install.
Let args := child_args install _argv.

(** The run reaches the spawn, and what can be observed of it is the
    diagnostics of a debug build followed by the spawn request. *)
Lemma main_reaches_spawn :
  ∃ tr,
    main nd w _argv
    = (tr, Ok (to_int (status_of (create_process w ruby args)))) ∧
    observable tr
    = (if nd then [] else diagnostics_in _argv ++ diagnostics_out args)
        ++ [EvSpawn ruby args].
Proof using All.
  destruct (last_two_separators _ two_separators) as (a & b & c & Hs & Hb & Hc).
  destruct (main_run nd w _argv a b c Hs no_NUL Hb Hc path_fits room_left)
    as (tr & Hrun & Hobs).
  assert (install = a) as Ea
    by (unfold install; rewrite Hs; by apply spec_install_root_split).
  exists tr. unfold ruby, args, child_args, interpreter_path, script_path, snprintf.
  rewrite Ea. cbn [fst]. split; [done|]. rewrite Hobs.
  destruct nd; [done|]. by rewrite <- app_assoc.
Qed.

(** C4. When the spawn runs the child to completion, the launcher's exit
    status is the child's: the value [main] returns for a status in the
    range of [int], and the exit code the system records for a status in
    the range of a 32-bit exit code. *)
Theorem exit_status_is_the_childs (status : Z) :
  create_process w ruby args = ChildExited status →
  ∃ tr r,
    main nd w _argv = (tr, Ok r) ∧
    ((- 2 ^ 31 ≤ status < 2 ^ 31)%Z → r = status) ∧
    ((0 ≤ status < 2 ^ 32)%Z → exit_code r = status).
Proof using All.
  intros Hchild. destruct main_reaches_spawn as (tr & Hrun & _).
  rewrite Hchild in Hrun. cbn [status_of] in Hrun.
  exists tr, (to_int status). split; [done|].
  split; [apply to_int_in_range | apply exit_code_to_int].
Qed.

(** C5. When the spawn fails, the -1 it returns is what [main] returns,
    and nothing is observable of the run but the spawn request itself,
    preceded in a debug build by the usual diagnostics: no message about
    the failure and nothing after it. *)
Theorem spawn_failure_is_relayed :
  create_process w ruby args = SpawnFailed →
  ∃ tr,
    main nd w _argv = (tr, Ok (-1)%Z) ∧
    observable tr
    = (if nd then [] else diagnostics_in _argv ++ diagnostics_out args)
        ++ [EvSpawn ruby args].
Proof using All.
  intros Hfail. destruct main_reaches_spawn as (tr & Hrun & Hobs).
  rewrite Hfail in Hrun. by exists tr.
Qed.

(** C7. A path that would not fit in [SZ - 1] characters is cut to that
    length without any sign of it: the derivation step yields the cut
    strings with no fault and no event, and the run goes on to spawn the
    cut interpreter path. *)
Theorem overlong_paths_are_cut_silently :
  (∀ rest,
     derive_paths (install ++ NUL :: rest)
     = ([], Ok (ruby, script_path install))) ∧
  (SZ ≤ length install + length (lit ruby_suffix) →
     ruby = take (SZ - 1) (install ++ lit ruby_suffix) ∧
     length ruby = SZ - 1 ∧ ruby ≠ install ++ lit ruby_suffix) ∧
  (SZ ≤ length install + length (lit script_suffix) →
     script_path install = take (SZ - 1) (install ++ lit script_suffix) ∧
     length (script_path install) = SZ - 1 ∧
     script_path install ≠ install ++ lit script_suffix) ∧
  ∃ tr,
    main nd w _argv
    = (tr, Ok (to_int (status_of (create_process w ruby args)))) ∧
    observable tr
    = (if nd then [] else diagnostics_in _argv ++ diagnostics_out args)
        ++ [EvSpawn ruby args].
Proof using All.
  assert (0 < SZ) as Hpos by lia.
  split; [|split; [|split]]; [| | | apply main_reaches_spawn].
  - intros rest. apply derive_paths_run.
    destruct (last_two_separators _ two_separators) as (a & b & c & Hs & Hb & Hc).
    unfold install. rewrite Hs, spec_install_root_split by done.
    rewrite Hs in no_NUL. by apply not_elem_of_app in no_NUL as [? _].
  - intros Hlong. split; [done|].
    by apply (snprintf_cut SZ install ruby_suffix).
  - intros Hlong. split; [done|].
    by apply (snprintf_cut SZ install script_suffix).
Qed.
End WholeRun.

Lemma exit_status_is_the_childs_witness :
  (NUL ∉ self_path (sample_world (ChildExited 3))) ∧
  2 ≤ separators (self_path (sample_world (ChildExited 3))) ∧
  length (self_path (sample_world (ChildExited 3))) < SZ ∧
  entries sample_args < SZ ∧
  ∃ tr r,
    main false (sample_world (ChildExited 3)) sample_args = (tr, Ok r) ∧
    ((- 2 ^ 31 ≤ 3 < 2 ^ 31)%Z → r = 3%Z) ∧
    ((0 ≤ 3 < 2 ^ 32)%Z → exit_code r = 3%Z).
Proof.
  assert (NUL ∉ self_path (sample_world (ChildExited 3))) as H1 by by_compute.
  assert (2 ≤ separators (self_path (sample_world (ChildExited 3)))) as H2
    by by_compute.
  assert (length (self_path (sample_world (ChildExited 3))) < SZ) as H3
    by by_compute.
  assert (entries sample_args < SZ) as H4 by by_compute.
  repeat (split; [assumption|]).
  exact (exit_status_is_the_childs false (sample_world (ChildExited 3))
           sample_args H1 H2 H3 H4 3%Z eq_refl).
Defined.

Lemma spawn_failure_is_relayed_witness :
  (NUL ∉ self_path (sample_world SpawnFailed)) ∧
  2 ≤ separators (self_path (sample_world SpawnFailed)) ∧
  length (self_path (sample_world SpawnFailed)) < SZ ∧
  entries sample_args < SZ ∧
  ∃ tr,
    main true (sample_world SpawnFailed) sample_args = (tr, Ok (-1)%Z) ∧
    observable tr
    = [EvSpawn (lit "C:\app\ruby\bin\ruby.exe")
         [lit "C:\app\ruby\bin\ruby.exe"; lit "C:\app\ruby\bin\rockup";
          lit "foo.txt"; lit "--verbose"]].
Proof.
  assert (NUL ∉ self_path (sample_world SpawnFailed)) as H1 by by_compute.
  assert (2 ≤ separators (self_path (sample_world SpawnFailed))) as H2
    by by_compute.
  assert (length (self_path (sample_world SpawnFailed)) < SZ) as H3
    by by_compute.
  assert (entries sample_args < SZ) as H4 by by_compute.
  repeat (split; [assumption|]).
  exact (spawn_failure_is_relayed true (sample_world SpawnFailed)
           sample_args H1 H2 H3 H4 eq_refl).
Defined.

Lemma overlong_paths_are_cut_silently_witness :
  (NUL ∉ self_path (long_world SpawnFailed)) ∧
  2 ≤ separators (self_path (long_world SpawnFailed)) ∧
  length (self_path (long_world SpawnFailed)) < SZ ∧
  entries sample_args < SZ ∧
  SZ ≤ length (spec_install_root (self_path (long_world SpawnFailed)))
       + length (lit script_suffix) ∧
  length (interpreter_path (spec_install_root (self_path (long_world SpawnFailed))))
  = SZ - 1 ∧
  ∃ tr,
    main true (long_world SpawnFailed) sample_args = (tr, Ok (-1)%Z) ∧
    observable tr
    = [EvSpawn
         (interpreter_path (spec_install_root (self_path (long_world SpawnFailed))))
         (child_args (spec_install_root (self_path (long_world SpawnFailed)))
            sample_args)].
Proof.
  assert (NUL ∉ self_path (long_world SpawnFailed)) as H1 by by_compute.
  assert (2 ≤ separators (self_path (long_world SpawnFailed))) as H2
    by by_compute.
  assert (length (self_path (long_world SpawnFailed)) < SZ) as H3 by by_compute.
  assert (entries sample_args < SZ) as H4 by by_compute.
  assert (SZ ≤ length (spec_install_root (self_path (long_world SpawnFailed)))
               + length (lit script_suffix)) as H5 by by_compute.
  assert (SZ ≤ length (spec_install_root (self_path (long_world SpawnFailed)))
               + length (lit ruby_suffix)) as H6 by by_compute.
  repeat (split; [assumption|]).
  destruct (overlong_paths_are_cut_silently true (long_world SpawnFailed)
              sample_args H1 H2 H3 H4) as (_ & Hruby & _ & Hrun).
  split; [exact (proj1 (proj2 (Hruby H6))) | exact Hrun].
Defined.

(** ** Diagnostics *)

Lemma stdout_app t1 t2 : stdout (t1 ++ t2) = stdout t1 ++ stdout t2.
Proof. apply omap_app. Qed.

Lemma stdout_observable tr : stdout (observable tr) = stdout tr.
Proof.
  unfold stdout, observable. induction tr as [|[] tr IH]; cbn; by rewrite ?IH.
Qed.

Lemma silent_bind {A B} (m : M A) (f : A → M B) :
  silent m → (∀ a, silent (f a)) → silent (m ≫= f).
Proof.
  unfold silent. intros Hm Hf. destruct m as [t [a|e]]; [|done].
  rewrite bind_ok. cbn [fst] in *. by rewrite stdout_app, Hm, Hf.
Qed.

Lemma silent_load {A} b (a : list A) i : silent (load b a i).
Proof. unfold load. apply silent_bind; [done|]. intros _. by destruct (a !! i). Qed.

Lemma silent_store {A} b (a : list A) i x : silent (store b a i x).
Proof. unfold store. apply silent_bind; [done|]. intros _. by case_decide. Qed.

Lemma silent_strlen b a : silent (strlen b a).
Proof. unfold strlen. by destruct (strlen_from a). Qed.

Lemma silent_read_cstr b a : silent (read_cstr b a).
Proof. unfold read_cstr. apply silent_bind; [apply silent_strlen | done]. Qed.

Lemma silent_scan_back root i : silent (scan_back root i).
Proof.
  induction i as [|i IH]; [done|]. cbn [scan_back].
  apply silent_bind; [apply silent_load|]. intros c. by case_decide.
Qed.

Lemma silent_truncate_root root : silent (truncate_root root).
Proof.
  unfold truncate_root.
  repeat (apply silent_bind;
          [first [apply silent_strlen | apply silent_scan_back] | intros ?]).
  apply silent_store.
Qed.

Lemma silent_derive_paths root : silent (derive_paths root).
Proof.
  unfold derive_paths.
  repeat (apply silent_bind; [apply silent_read_cstr | intros ?]). done.
Qed.

Lemma silent_copy_args n : ∀ _argv x argv i, silent (copy_args n _argv x argv i).
Proof.
  induction n as [|n IH]; intros _argv x argv i; [done|]. cbn [copy_args].
  apply silent_bind; [apply silent_load | intros ?].
  apply silent_bind; [apply silent_store | intros ?]. apply IH.
Qed.

Lemma silent_build_argv ruby script _argv : silent (build_argv ruby script _argv).
Proof.
  unfold build_argv.
  repeat (apply silent_bind; [apply silent_store | intros ?]).
  apply silent_bind; [apply silent_copy_args | by intros []].
Qed.

Lemma silent_child_argv root _argv : silent (child_argv root _argv).
Proof.
  unfold child_argv.
  apply silent_bind; [apply silent_derive_paths | intros [ruby script]].
  apply silent_build_argv.
Qed.

Lemma silent_read_vector slots : ∀ i, silent (read_vector slots i).
Proof.
  induction slots as [|[s|] slots IH]; intros i; [done| |done].
  cbn [read_vector]. apply silent_bind; [apply IH | done].
Qed.

Lemma silent_spawnvp w cmd argv : silent (_spawnvp w cmd argv).
Proof.
  unfold _spawnvp. destruct cmd; [|done].
  apply silent_bind; [apply silent_read_vector | done].
Qed.

(** A release build prints nothing, on any input. *)
Lemma release_is_silent w _argv : silent (main true w _argv).
Proof.
  unfold main. cbn match.
  apply silent_bind; [done | intros ?].
  apply silent_bind; [apply silent_truncate_root | intros ?].
  apply silent_bind; [apply silent_child_argv | intros ?].
  apply silent_bind; [done | intros ?].
  apply silent_bind; [apply silent_load | intros ?].
  apply silent_bind; [apply silent_spawnvp | done].
Qed.

(** C9. A release build sends nothing to standard output, whatever the
    invocation. A debug build prints the argument count and every incoming
    argument behind the marker [^], then every assembled child argument
    behind the different marker [>], all of it before the spawn. *)
Theorem diagnostics_only_in_debug :
  (∀ w _argv, stdout (main true w _argv).1 = []) ∧
  (∀ w _argv,
     NUL ∉ self_path w → 2 ≤ separators (self_path w) →
     length (self_path w) < SZ → entries _argv < SZ →
     let install := spec_install_root (self_path w) in
     observable (main false w _argv).1
     = diagnostics_in _argv ++ diagnostics_out (child_args install _argv)
         ++ [EvSpawn (interpreter_path install) (child_args install _argv)]) ∧
  lit "^ " ≠ lit "> ".
Proof.
  split; [exact release_is_silent|]. split; [|done].
  intros w _argv H1 H2 H3 H4 install.
  destruct (main_reaches_spawn false w _argv H1 H2 H3 H4) as (tr & -> & Hobs).
  cbn [fst]. rewrite Hobs. by rewrite <- app_assoc.
Qed.

Lemma diagnostics_only_in_debug_witness :
  (NUL ∉ self_path (sample_world (ChildExited 0))) ∧
  2 ≤ separators (self_path (sample_world (ChildExited 0))) ∧
  length (self_path (sample_world (ChildExited 0))) < SZ ∧
  entries sample_args < SZ ∧
  stdout (main true (sample_world (ChildExited 0)) sample_args).1 = [] ∧
  stdout (main false (sample_world (ChildExited 0)) sample_args).1
  = [lit "argc = 3" ++ [LF];
     lit "^ launcher" ++ [LF]; lit "^ foo.txt" ++ [LF];
     lit "^ --verbose" ++ [LF];
     lit "> C:\app\ruby\bin\ruby.exe" ++ [LF];
     lit "> C:\app\ruby\bin\rockup" ++ [LF];
     lit "> foo.txt" ++ [LF]; lit "> --verbose" ++ [LF]].
Proof.
  assert (NUL ∉ self_path (sample_world (ChildExited 0))) as H1 by by_compute.
  assert (2 ≤ separators (self_path (sample_world (ChildExited 0)))) as H2
    by by_compute.
  assert (length (self_path (sample_world (ChildExited 0))) < SZ) as H3
    by by_compute.
  assert (entries sample_args < SZ) as H4 by by_compute.
  repeat (split; [assumption|]).
  destruct diagnostics_only_in_debug as (Hrelease & Hdebug & _).
  split; [apply Hrelease|].
  pose proof (Hdebug (sample_world (ChildExited 0)) sample_args H1 H2 H3 H4)
    as Hobs.
  cbv zeta in Hobs.
  rewrite <- stdout_observable, Hobs. reflexivity.
Defined.

(** * Further properties of [main] *)

(** ** Runs, in general *)

Lemma bind_fault {A B} (f : A → M B) t e :
  (((t, Fault e) : M A) ≫= f) = (t, Fault e).
Proof. done. Qed.

(** A bind that ends well went through both of its parts. *)
Lemma bind_Ok_inv {A B} (m : M A) (f : A → M B) tr b :
  (m ≫= f) = (tr, Ok b) →
  ∃ t1 a t2, m = (t1, Ok a) ∧ f a = (t2, Ok b) ∧ tr = t1 ++ t2.
Proof.
  destruct m as [t1 [a|e]]; [|by rewrite bind_fault].
  rewrite bind_ok. destruct (f a) as [t2 r] eqn:Ef. cbn [fst snd].
  intros [= <- ->]. by exists t1, a, t2.
Qed.

Lemma bind_trace {A B} (m : M A) (f : A → M B) :
  (m ≫= f).1 = m.1 ++ match m.2 with Ok a => (f a).1 | Fault _ => [] end.
Proof. destruct m as [t [a|e]]; [done|]. by rewrite bind_fault, app_nil_r. Qed.

Lemma store_Ok_inv {A} b (a : list A) i x tr a' :
  store b a i x = (tr, Ok a') → i < length a ∧ a' = <[i:=x]> a.
Proof.
  unfold store, emit. rewrite bind_ok. case_decide; [|done].
  by intros [= _ <-].
Qed.

(** ** The backward scan, on any buffer *)

(** Whatever the buffer, a scan that ends has stopped on the nearest
    separator below its start. *)
Lemma scan_back_Ok_inv root : ∀ i tr j,
  scan_back root i = (tr, Ok j) →
  j < i ∧ root !! j = Some sep ∧ ∀ k, j < k < i → root !! k ≠ Some sep.
Proof.
  induction i as [|i IH]; intros tr j; cbn [scan_back]; [done|].
  destruct (root !! i) as [c|] eqn:Ec;
    [| by rewrite load_fault, bind_fault by by apply lookup_ge_None].
  rewrite (load_run _ _ _ c), bind_ok by done. cbn [fst snd].
  case_decide as Hc.
  - intros [= _ <-]. subst c. repeat split; [lia | done | intros k ?; lia].
  - destruct (scan_back root i) as [t r] eqn:Escan. cbn [fst snd].
    intros [= _ ->]. destruct (IH t j eq_refl) as (Hlt & Hj & Hbetween).
    repeat split; [lia | done |]. intros k Hk.
    destruct (decide (k = i)) as [->|]; [congruence | apply Hbetween; lia].
Qed.

(** X2. Started at [i] inside the buffer with a separator somewhere below
    [i], the scan ends, without fault, on the nearest separator below [i]:
    no separator lies between the index it returns and [i]. *)
Theorem scan_back_finds_nearest_separator (root : list ascii) (i : nat) :
  i ≤ length root →
  (∃ k, k < i ∧ root !! k = Some sep) →
  ∃ tr j,
    scan_back root i = (tr, Ok j) ∧
    j < i ∧ root !! j = Some sep ∧ ∀ k, j < k < i → root !! k ≠ Some sep.
Proof.
  intros Hi Hsep.
  assert (∃ tr j, scan_back root i = (tr, Ok j)) as (tr & j & Hrun).
  { induction i as [|i IH]; [destruct Hsep as (k & ? & _); lia|].
    cbn [scan_back].
    destruct (lookup_lt_is_Some_2 root i) as [c Hc]; [lia|].
    rewrite (load_run _ _ _ c), bind_ok by done.
    case_decide as Hcs; [by eexists _, _|].
    destruct IH as (tr & j & ->); [lia | | by eexists _, _].
    destruct Hsep as (k & Hk & Hsepk). exists k. split; [|done].
    destruct (decide (k = i)) as [->|]; [congruence | lia]. }
  exists tr, j. split; [done|]. by eapply scan_back_Ok_inv.
Qed.

Lemma scan_back_finds_nearest_separator_witness :
  21 ≤ length (sample_path ++ [NUL]) ∧
  (∃ k, k < 21 ∧ (sample_path ++ [NUL]) !! k = Some sep) ∧
  ∃ tr j,
    scan_back (sample_path ++ [NUL]) 21 = (tr, Ok j) ∧
    j < 21 ∧ (sample_path ++ [NUL]) !! j = Some sep ∧
    ∀ k, j < k < 21 → (sample_path ++ [NUL]) !! k ≠ Some sep.
Proof.
  assert (21 ≤ length (sample_path ++ [NUL])) as Hi by by_compute.
  assert (∃ k, k < 21 ∧ (sample_path ++ [NUL]) !! k = Some sep) as Hsep
    by (exists 2; split; [lia | reflexivity]).
  split; [exact Hi|]. split; [exact Hsep|].
  exact (scan_back_finds_nearest_separator _ 21 Hi Hsep).
Defined.

(** X3. Whatever [root] holds, a truncation that ends has changed exactly
    one character of it, a separator, into the terminator, and has kept the
    length of the buffer. *)
Theorem truncation_overwrites_one_separator (root root' : list ascii)
    (tr : list event) :
  truncate_root root = (tr, Ok root') →
  ∃ i, root !! i = Some sep ∧ root' = <[i:=NUL]> root ∧
       length root' = length root.
Proof.
  unfold truncate_root. intros Hrun.
  apply bind_Ok_inv in Hrun as (t0 & n & t1 & _ & Hrun & _).
  apply bind_Ok_inv in Hrun as (t2 & i1 & t3 & _ & Hrun & _).
  apply bind_Ok_inv in Hrun as (t4 & i & t5 & Hscan & Hstore & _).
  apply scan_back_Ok_inv in Hscan as (_ & Hsep & _).
  apply store_Ok_inv in Hstore as [_ ->].
  exists i. by rewrite length_insert.
Qed.

Lemma truncation_overwrites_one_separator_witness :
  truncate_root (sample_path ++ [NUL])
  = (reads 10 11 ++ reads 6 4 ++ [EvWrite Root 6],
     Ok (<[6:=NUL]> (sample_path ++ [NUL]))) ∧
  ∃ i, (sample_path ++ [NUL]) !! i = Some sep ∧
       <[6:=NUL]> (sample_path ++ [NUL]) = <[i:=NUL]> (sample_path ++ [NUL]) ∧
       length (<[6:=NUL]> (sample_path ++ [NUL])) = length (sample_path ++ [NUL]).
Proof.
  assert (truncate_root (sample_path ++ [NUL])
          = (reads 10 11 ++ reads 6 4 ++ [EvWrite Root 6],
             Ok (<[6:=NUL]> (sample_path ++ [NUL])))) as Hrun
    by (vm_compute; reflexivity).
  split; [exact Hrun|].
  exact (truncation_overwrites_one_separator _ _ _ Hrun).
Defined.

(** ** The truncation at its edges *)

Lemma reads_are_root_reads lo n : forallb is_root_read (reads lo n) = true.
Proof. induction n as [|n IH]; [done|]. by rewrite reads_S. Qed.

(** X1. On a string with fewer than two separators (the empty string
    included) the truncation reads [root[-1]]: up to that read it has only
    read [root], inside the string, and written nothing. *)
Theorem truncation_walks_off_without_two_separators (s rest : list ascii) :
  NUL ∉ s → separators s < 2 →
  ∃ tr,
    truncate_root (s ++ NUL :: rest)
    = (tr ++ [EvRead Root (-1)%Z], Fault (OutOfBounds Root (-1)%Z)) ∧
    forallb is_root_read tr = true ∧
    forallb (in_string (length s)) tr = true.
Proof.
  intros Hnul Hn. unfold truncate_root, strlen.
  rewrite strlen_from_app by done. rewrite bind_ret.
  destruct (decide (1 ≤ separators s)) as [H1|H0].
  - destruct (last_separator s H1) as (x & y & -> & Hy & Hx).
    assert (sep ∉ x) as Hx' by (apply separators_zero; lia).
    pose proof (scan_back_run x y (NUL :: rest) Hy) as S1.
    pose proof (scan_back_off x (sep :: y ++ NUL :: rest) Hx') as S2.
    assert ((x ++ sep :: y) ++ NUL :: rest = x ++ sep :: y ++ NUL :: rest) as E
      by by rewrite <- app_assoc.
    assert (length (x ++ sep :: y) = length x + S (length y)) as El
      by (rewrite length_app; cbn [length]; lia).
    rewrite E, El, S1, bind_ok, S2. cbn [fst snd]. rewrite bind_fault.
    exists (reads (length x) (S (length y)) ++ reads 0 (length x)).
    split; [by rewrite <- app_assoc|].
    by rewrite !forallb_app, !reads_are_root_reads, !reads_in_string by lia.
  - assert (sep ∉ s) as Hs by (apply separators_zero; lia).
    rewrite (scan_back_off s (NUL :: rest) Hs), bind_fault.
    exists (reads 0 (length s)). split; [done|].
    by rewrite reads_are_root_reads, reads_in_string by lia.
Qed.

Lemma truncation_walks_off_without_two_separators_witness :
  (NUL ∉ shallow_path) ∧ separators shallow_path < 2 ∧
  ∃ tr,
    truncate_root (shallow_path ++ NUL :: lit "??")
    = (tr ++ [EvRead Root (-1)%Z], Fault (OutOfBounds Root (-1)%Z)) ∧
    forallb is_root_read tr = true ∧
    forallb (in_string (length shallow_path)) tr = true.
Proof.
  assert (NUL ∉ shallow_path) as Hnul by by_compute.
  assert (separators shallow_path < 2) as Hn by by_compute.
  split; [exact Hnul|]. split; [exact Hn|].
  exact (truncation_walks_off_without_two_separators _ (lit "??") Hnul Hn).
Defined.

(** X4. The self path is the install root the program computes, a
    separator, a directory name, a separator and a file name, the two names
    holding no separator: nothing of the path is lost but its last two
    segments, and the install root keeps every earlier separator. *)
Theorem self_path_splits_at_install_root (s rest : list ascii) :
  NUL ∉ s → 2 ≤ separators s →
  ∃ r b c,
    (install_root (s ++ NUL :: rest)).2 = Ok r ∧
    s = r ++ sep :: b ++ sep :: c ∧ (sep ∉ b) ∧ (sep ∉ c) ∧
    separators r + 2 = separators s.
Proof.
  intros Hnul Hn.
  destruct (last_two_separators s Hn) as (a & b & c & -> & Hb & Hc).
  exists a, b, c. unfold install_root.
  rewrite truncate_root_run, bind_ok by done.
  rewrite read_cstr_app by by apply not_elem_of_app in Hnul as [? _].
  repeat split; [done..|].
  assert (∀ x y, separators (x ++ sep :: y) = separators x + S (separators y))
    as Happ.
  { intros x y. induction x as [|d x IH]; cbn [app].
    - by rewrite separators_cons, decide_True.
    - rewrite !separators_cons, IH. lia. }
  assert (∀ y, sep ∉ y → separators y = 0) as Hnone.
  { induction y as [|d y IH]; [done|]. intros [? ?]%not_elem_of_cons.
    rewrite separators_cons, decide_False by done. by rewrite IH. }
  rewrite !Happ, (Hnone b), (Hnone c) by done. lia.
Qed.

Lemma self_path_splits_at_install_root_witness :
  (NUL ∉ sample_path) ∧ 2 ≤ separators sample_path ∧
  ∃ r b c,
    (install_root (sample_path ++ NUL :: lit "??")).2 = Ok r ∧
    sample_path = r ++ sep :: b ++ sep :: c ∧ (sep ∉ b) ∧ (sep ∉ c) ∧
    separators r + 2 = separators sample_path.
Proof.
  assert (NUL ∉ sample_path) as Hnul by by_compute.
  assert (2 ≤ separators sample_path) as Hn by by_compute.
  split; [exact Hnul|]. split; [exact Hn|].
  exact (self_path_splits_at_install_root _ (lit "??") Hnul Hn).
Defined.

(** ** The assembly past the capacity of [argv] *)

Lemma store_trace {A} b (a : list A) i x :
  (store b a i x).1 = [EvWrite b (Z.of_nat i)].
Proof. unfold store, emit. rewrite bind_ok. by case_decide. Qed.

(** When the arguments left to copy outnumber the slots left, the loop
    stores at the first index past the array. *)
Lemma copy_args_overflow n : ∀ _argv x argv i,
  x + n ≤ length _argv → i ≤ length argv → length argv < i + n →
  ∃ tr,
    copy_args n _argv x argv i
    = (tr, Fault (OutOfBounds Argv (Z.of_nat (length argv)))) ∧
    forallb (argv_write_upto (length argv)) tr = true.
Proof.
  induction n as [|n IH]; intros _argv x argv i Hx Hi Hover; [lia|].
  cbn [copy_args].
  destruct (lookup_lt_is_Some_2 _argv x) as [p Hp]; [lia|].
  rewrite (load_run _ _ _ p), bind_ok by done. cbn [fst snd].
  destruct (decide (i < length argv)) as [Hlt|Hge].
  - rewrite store_run, bind_ok by done. cbn [fst snd].
    destruct (IH _argv (S x) (<[i:=Some p]> argv) (S i)) as (tr & Hrun & Hw);
      [rewrite ?length_insert; lia..|].
    rewrite length_insert in Hrun, Hw. rewrite Hrun. eexists. split; [done|].
    cbn [app forallb argv_write_upto fst]. rewrite Hw.
    rewrite bool_decide_eq_true_2; [done | lia].
  - assert (i = length argv) as -> by lia.
    rewrite store_fault, bind_fault by lia. eexists. split; [done|].
    cbn [app forallb argv_write_upto fst].
    rewrite bool_decide_eq_true_2; [done | lia].
Qed.

Lemma build_argv_overflow ruby script _argv :
  SZ < entries _argv →
  ∃ tr,
    build_argv ruby script _argv
    = (tr, Fault (OutOfBounds Argv (Z.of_nat SZ))) ∧
    forallb (argv_write_upto SZ) tr = true.
Proof.
  pose proof SZ_value as HSZ. unfold entries. intros Hover.
  unfold build_argv, calloc.
  rewrite store_run, bind_ok by (rewrite length_replicate; lia).
  rewrite store_run, bind_ok by (rewrite length_insert, length_replicate; lia).
  cbn [fst snd].
  set (argv := <[1:=Some script]> (<[0:=Some ruby]> (replicate SZ None))).
  assert (length argv = SZ) as Hlen
    by (unfold argv; by rewrite !length_insert, length_replicate).
  destruct (copy_args_overflow (length _argv - 1) _argv 1 argv 2)
    as (tr & Hrun & Hw); [lia..|].
  rewrite Hlen in Hrun, Hw. rewrite Hrun, bind_fault. eexists. split; [done|].
  cbn [app forallb argv_write_upto fst]. rewrite Hw.
  by rewrite !bool_decide_eq_true_2 by lia.
Qed.

(** ** The incoming vector is read inside its bounds *)

Lemma copy_args_reads n : ∀ _argv x argv i,
  1 ≤ x → (0 < n → x + n ≤ length _argv) →
  forallb (input_read_ok (length _argv)) (copy_args n _argv x argv i).1 = true.
Proof.
  induction n as [|n IH]; intros _argv x argv i Hx Hn; [done|].
  cbn [copy_args].
  destruct (lookup_lt_is_Some_2 _argv x) as [p Hp]; [lia|].
  rewrite (load_run _ _ _ p), bind_ok by done. cbn [fst].
  rewrite bind_trace, store_trace. cbn [app forallb input_read_ok].
  rewrite bool_decide_eq_true_2 by lia.
  destruct (store Argv argv i (Some p)).2; [|done].
  apply IH; lia.
Qed.

(** X7. Whatever the number of arguments, the assembly subscripts the
    incoming [_argv] only from index 1 to index [argc - 1]: it never reads
    the program name and never reads past the arguments it was given, also
    in the runs that overflow [argv]. *)
Theorem input_vector_reads_stay_in_bounds (ruby script : list ascii)
    (_argv : list (list ascii)) :
  forallb (input_read_ok (length _argv)) (build_argv ruby script _argv).1 = true.
Proof.
  unfold build_argv.
  rewrite bind_trace, store_trace. cbn [app forallb input_read_ok].
  destruct (store Argv (calloc SZ) 0 (Some ruby)).2 as [argv0|]; [|done].
  rewrite bind_trace, store_trace. cbn [app forallb input_read_ok].
  destruct (store Argv argv0 1 (Some script)).2 as [argv1|]; [|done].
  rewrite bind_trace, forallb_app.
  rewrite copy_args_reads by lia.
  by destruct (copy_args _ _ _ _ _).2 as [[? ?]|].
Qed.

(** ** Process creation requests *)

Lemma spawn_requests_app t1 t2 :
  spawn_requests (t1 ++ t2) = spawn_requests t1 ++ spawn_requests t2.
Proof. apply List.filter_app. Qed.

Lemma spawn_requests_write b i tr :
  spawn_requests (EvWrite b i :: tr) = spawn_requests tr.
Proof. done. Qed.

Lemma load_trace {A} b (a : list A) i : (load b a i).1 = [EvRead b (Z.of_nat i)].
Proof. unfold load, emit. rewrite bind_ok. by destruct (a !! i). Qed.

Lemma copy_args_no_spawn n : ∀ _argv x argv i,
  spawn_requests (copy_args n _argv x argv i).1 = [].
Proof.
  induction n as [|n IH]; intros _argv x argv i; [done|]. cbn [copy_args].
  rewrite bind_trace, load_trace. cbn [app].
  destruct (load InArgv _argv x).2 as [p|]; [|done].
  rewrite bind_trace, store_trace. cbn [app].
  destruct (store Argv argv i (Some p)).2 as [argv'|]; [|done].
  apply IH.
Qed.

Lemma build_argv_no_spawn ruby script _argv :
  spawn_requests (build_argv ruby script _argv).1 = [].
Proof.
  unfold build_argv.
  rewrite bind_trace, store_trace. cbn [app].
  destruct (store Argv (calloc SZ) 0 (Some ruby)).2 as [argv0|]; [|done].
  rewrite bind_trace, store_trace. cbn [app].
  destruct (store Argv argv0 1 (Some script)).2 as [argv1|]; [|done].
  rewrite !spawn_requests_write.
  rewrite bind_trace, spawn_requests_app, copy_args_no_spawn.
  by destruct (copy_args _ _ _ _ _).2 as [[? ?]|].
Qed.

Lemma spawn_requests_reads lo n : spawn_requests (reads lo n) = [].
Proof. induction n as [|n IH]; [done|]. by rewrite reads_S. Qed.

Lemma print_args_no_spawn n : ∀ _argv i,
  spawn_requests (print_args n _argv i).1 = [].
Proof.
  induction n as [|n IH]; intros _argv i; [done|]. cbn [print_args].
  destruct (_argv !! i) as [p|] eqn:Ep;
    [| by rewrite load_fault, bind_fault by by apply lookup_ge_None].
  rewrite (load_run _ _ _ p), bind_ok by done.
  unfold printf, emit. rewrite bind_ok. cbn [fst]. apply IH.
Qed.

(** X5. With more entries than [argv] has slots, the assembly stores at
    [argv[SZ]], the first index past the array, before any higher one:
    every store up to that one is at an index up to [SZ], and up to there
    the assembly has printed nothing and requested no process. *)
Theorem assembly_overflows_at_capacity (ruby script : list ascii)
    (_argv : list (list ascii)) :
  SZ < entries _argv →
  ∃ tr,
    build_argv ruby script _argv
    = (tr, Fault (OutOfBounds Argv (Z.of_nat SZ))) ∧
    forallb (argv_write_upto SZ) tr = true ∧
    stdout tr = [] ∧ spawn_requests tr = [].
Proof.
  intros Hover.
  destruct (build_argv_overflow ruby script _argv Hover) as (tr & Hrun & Hw).
  pose proof (silent_build_argv ruby script _argv) as Hquiet.
  pose proof (build_argv_no_spawn ruby script _argv) as Hno.
  unfold silent in Hquiet. rewrite Hrun in Hquiet, Hno.
  by exists tr.
Qed.

Lemma assembly_overflows_at_capacity_witness :
  SZ < entries overfull_args ∧
  ∃ tr,
    build_argv (lit "r") (lit "s") overfull_args
    = (tr, Fault (OutOfBounds Argv (Z.of_nat SZ))) ∧
    forallb (argv_write_upto SZ) tr = true ∧
    stdout tr = [] ∧ spawn_requests tr = [].
Proof.
  assert (SZ < entries overfull_args) as Hover by by_compute.
  split; [exact Hover|].
  exact (assembly_overflows_at_capacity (lit "r") (lit "s") overfull_args Hover).
Defined.

(** Over an array full of non-null slots the debug loop reads past it. *)
Lemma print_child_full args : ∀ i,
  ∃ tr,
    print_child (Some <$> args) i
    = (tr, Fault (OutOfBounds Argv (Z.of_nat (i + length args)))) ∧
    spawn_requests tr = [].
Proof.
  induction args as [|p args IH]; intros i.
  - eexists. cbn [fmap list_fmap print_child length].
    unfold emit. rewrite bind_ok, Nat.add_0_r. done.
  - destruct (IH (S i)) as (tr & Htr & Hno).
    cbn [fmap list_fmap print_child length].
    unfold printf, emit. rewrite !bind_ok, Htr. cbn [fst snd].
    eexists. split; [by replace (S i + length args) with (i + S (length args)) by lia|].
    done.
Qed.

(** A run up to the assembly of the child vector. *)
Lemma main_upto_assembly nd w _argv a b c :
  self_path w = a ++ sep :: b ++ sep :: c →
  NUL ∉ self_path w → sep ∉ b → sep ∉ c →
  length (self_path w) < SZ →
  ∃ t,
    spawn_requests t = [] ∧
    main nd w _argv
    = (let m :=
         build_argv (take (SZ - 1) (a ++ lit ruby_suffix))
           (take (SZ - 1) (a ++ lit script_suffix)) _argv
         ≫= λ argv,
           (if nd then mret 0 else print_child argv 0);;
           cmd ← load Argv argv 0;
           r ← _spawnvp w cmd argv;
           mret (to_int r) in
       (t ++ m.1, m.2)).
Proof.
  intros Hs Hnul Hb Hc Hlen.
  assert (∃ t0 k, (if nd then mret 0 else
                   printf (lit "argc = " ++ dec (Z.of_nat (length _argv)) ++ [LF]);;
                   print_args (length _argv) _argv 0)
                = (t0, Ok k) ∧ spawn_requests t0 = [])
    as (t0 & k & E0 & O0).
  { destruct nd; [by exists [], 0|].
    destruct (print_args_run (length _argv) _argv 0) as (tr & Htr & _); [lia|].
    pose proof (print_args_no_spawn (length _argv) _argv 0) as Hno.
    rewrite Htr in Hno. unfold printf, emit. rewrite bind_ok, Htr.
    by eexists _, _. }
  destruct (GetModuleFileName_fits (self_path w) (malloc (heap_junk w) SZ) SZ)
    as [rest Eroot]; [done | apply length_malloc |].
  assert (NUL ∉ a) as Ha by (rewrite Hs in Hnul; by apply not_elem_of_app in Hnul as [? _]).
  unfold main. rewrite E0, bind_ok. cbn [fst snd].
  rewrite Eroot, Hs, truncate_root_run, bind_ok by (rewrite <- ?Hs; done).
  cbn [fst snd]. rewrite child_argv_run by done.
  set (cut := reads (length a + S (length b)) (S (length c))
              ++ reads (length a) (S (length b))
              ++ [EvWrite Root (Z.of_nat (length a))]).
  exists (t0 ++ cut). split; [|cbv zeta; by rewrite (app_assoc t0 cut)].
  unfold cut. rewrite !spawn_requests_app, O0, !spawn_requests_reads. done.
Qed.

(** X6. From a well-formed self path, an argument list whose entries fill
    or exceed the [SZ] slots of [argv] makes the run subscript [argv[SZ]],
    past the array, in a release and in a debug build alike, and no process
    creation is requested before that. *)
Theorem crowded_run_leaves_argv (nd : bool) (w : world)
    (_argv : list (list ascii)) :
  NUL ∉ self_path w → 2 ≤ separators (self_path w) →
  length (self_path w) < SZ →
  SZ ≤ entries _argv →
  (main nd w _argv).2 = Fault (OutOfBounds Argv (Z.of_nat SZ)) ∧
  spawn_requests (main nd w _argv).1 = [].
Proof.
  intros Hnul Hsep Hlen Hfull.
  destruct (last_two_separators _ Hsep) as (a & b & c & Hs & Hb & Hc).
  destruct (main_upto_assembly nd w _argv a b c Hs Hnul Hb Hc Hlen)
    as (t & Ht & ->).
  set (ruby := take (SZ - 1) (a ++ lit ruby_suffix)).
  set (script := take (SZ - 1) (a ++ lit script_suffix)).
  cbv zeta. cbn [fst snd]. rewrite spawn_requests_app, Ht. cbn [app].
  destruct (decide (SZ < entries _argv)) as [Hover|Hexact].
  - pose proof (build_argv_no_spawn ruby script _argv) as Hno.
    destruct (build_argv_overflow ruby script _argv Hover) as (tb & Hrun & _).
    rewrite Hrun in Hno. by rewrite Hrun, bind_fault.
  - assert (entries _argv = SZ) as Heq by lia.
    pose proof (build_argv_no_spawn ruby script _argv) as Hno.
    rewrite build_argv_run in Hno by lia. rewrite build_argv_run by lia.
    rewrite Heq, Nat.sub_diag. cbn [replicate]. rewrite app_nil_r, bind_ok.
    cbn [fst snd] in *.
    assert (length (ruby :: script :: drop 1 _argv) = SZ) as Hargs
      by (cbn [length]; rewrite length_drop; unfold entries in Heq; lia).
    rewrite spawn_requests_app, Hno. cbn [app].
    destruct nd.
    + rewrite bind_ret, (load_run _ _ _ (Some ruby)), bind_ok by done.
      cbn [fst snd]. unfold _spawnvp.
      rewrite read_vector_full, bind_fault, bind_fault. by rewrite Hargs.
    + destruct (print_child_full (ruby :: script :: drop 1 _argv) 0)
        as (tp & -> & Hchild).
      rewrite bind_fault. by rewrite Hargs.
Qed.

Lemma crowded_run_leaves_argv_witness :
  (NUL ∉ self_path (sample_world (ChildExited 0))) ∧
  2 ≤ separators (self_path (sample_world (ChildExited 0))) ∧
  length (self_path (sample_world (ChildExited 0))) < SZ ∧
  SZ ≤ entries crowded_args ∧
  (main true (sample_world (ChildExited 0)) crowded_args).2
  = Fault (OutOfBounds Argv (Z.of_nat SZ)) ∧
  spawn_requests (main true (sample_world (ChildExited 0)) crowded_args).1 = [].
Proof.
  assert (NUL ∉ self_path (sample_world (ChildExited 0))) as H1 by by_compute.
  assert (2 ≤ separators (self_path (sample_world (ChildExited 0)))) as H2
    by by_compute.
  assert (length (self_path (sample_world (ChildExited 0))) < SZ) as H3
    by by_compute.
  assert (SZ ≤ entries crowded_args) as H4 by by_compute.
  repeat (split; [assumption|]).
  exact (crowded_run_leaves_argv true (sample_world (ChildExited 0))
           crowded_args H1 H2 H3 H4).
Defined.

(** ** Whole runs: what does and does not matter *)




(** X8. From a well-formed deployment a debug build and a release build
    return the same value, and the debug build's observable behaviour is its
    diagnostics followed by exactly the release build's: the diagnostics
    change nothing of what is spawned or returned. *)
Theorem debug_and_release_agree (w : world) (_argv : list (list ascii)) :
  NUL ∉ self_path w → 2 ≤ separators (self_path w) →
  length (self_path w) < SZ → entries _argv < SZ →
  (main false w _argv).2 = (main true w _argv).2 ∧
  observable (main false w _argv).1
  = diagnostics_in _argv
      ++ diagnostics_out (child_args (spec_install_root (self_path w)) _argv)
      ++ observable (main true w _argv).1.
Proof.
  intros H1 H2 H3 H4.
  destruct (main_reaches_spawn false w _argv H1 H2 H3 H4) as (td & -> & Hd).
  destruct (main_reaches_spawn true w _argv H1 H2 H3 H4) as (tr & -> & Hr).
  cbn [fst snd]. rewrite Hd, Hr. split; [done|]. by rewrite <- app_assoc.
Qed.

Lemma debug_and_release_agree_witness :
  (NUL ∉ self_path (sample_world (ChildExited 7))) ∧
  2 ≤ separators (self_path (sample_world (ChildExited 7))) ∧
  length (self_path (sample_world (ChildExited 7))) < SZ ∧
  entries sample_args < SZ ∧
  (main false (sample_world (ChildExited 7)) sample_args).2
  = (main true (sample_world (ChildExited 7)) sample_args).2 ∧
  observable (main false (sample_world (ChildExited 7)) sample_args).1
  = diagnostics_in sample_args
      ++ diagnostics_out
           (child_args (spec_install_root (self_path (sample_world (ChildExited 7))))
              sample_args)
      ++ observable (main true (sample_world (ChildExited 7)) sample_args).1.
Proof.
  assert (NUL ∉ self_path (sample_world (ChildExited 7))) as H1 by by_compute.
  assert (2 ≤ separators (self_path (sample_world (ChildExited 7)))) as H2
    by by_compute.
  assert (length (self_path (sample_world (ChildExited 7))) < SZ) as H3
    by by_compute.
  assert (entries sample_args < SZ) as H4 by by_compute.
  repeat (split; [assumption|]).
  exact (debug_and_release_agree (sample_world (ChildExited 7)) sample_args
           H1 H2 H3 H4).
Defined.

(** X9. From a well-formed deployment the content of freshly allocated
    memory has no influence: with any other content the run returns the
    same value and shows the same observable behaviour. *)
Theorem fresh_memory_is_never_observed (nd : bool) (w : world)
    (junk : nat → ascii) (_argv : list (list ascii)) :
  NUL ∉ self_path w → 2 ≤ separators (self_path w) →
  length (self_path w) < SZ → entries _argv < SZ →
  (main nd (with_heap w junk) _argv).2 = (main nd w _argv).2 ∧
  observable (main nd (with_heap w junk) _argv).1
  = observable (main nd w _argv).1.
Proof.
  intros H1 H2 H3 H4.
  destruct (main_reaches_spawn nd w _argv H1 H2 H3 H4) as (tr & -> & Hr).
  destruct (main_reaches_spawn nd (with_heap w junk) _argv H1 H2 H3 H4)
    as (tj & -> & Hj).
  cbn [fst snd]. by rewrite Hr, Hj.
Qed.

Lemma fresh_memory_is_never_observed_witness :
  (NUL ∉ self_path (sample_world (ChildExited 7))) ∧
  2 ≤ separators (self_path (sample_world (ChildExited 7))) ∧
  length (self_path (sample_world (ChildExited 7))) < SZ ∧
  entries sample_args < SZ ∧
  (main false (with_heap (sample_world (ChildExited 7)) (λ _, sep)) sample_args).2
  = (main false (sample_world (ChildExited 7)) sample_args).2 ∧
  observable
    (main false (with_heap (sample_world (ChildExited 7)) (λ _, sep)) sample_args).1
  = observable (main false (sample_world (ChildExited 7)) sample_args).1.
Proof.
  assert (NUL ∉ self_path (sample_world (ChildExited 7))) as H1 by by_compute.
  assert (2 ≤ separators (self_path (sample_world (ChildExited 7)))) as H2
    by by_compute.
  assert (length (self_path (sample_world (ChildExited 7))) < SZ) as H3
    by by_compute.
  assert (entries sample_args < SZ) as H4 by by_compute.
  repeat (split; [assumption|]).
  exact (fresh_memory_is_never_observed false (sample_world (ChildExited 7))
           (λ _, sep) sample_args H1 H2 H3 H4).
Defined.

Lemma to_int_range z : (- 2 ^ 31 ≤ to_int z < 2 ^ 31)%Z.
Proof.
  unfold to_int.
  pose proof (Z.mod_pos_bound (z + 2 ^ 31) (2 ^ 32) ltac:(lia)). lia.
Qed.

Lemma exit_code_to_int_mod z : exit_code (to_int z) = (z mod 2 ^ 32)%Z.
Proof.
  unfold exit_code, to_int. rewrite Zminus_mod_idemp_l.
  by replace (z + 2 ^ 31 - 2 ^ 31)%Z with z by lia.
Qed.

(** X10. Whatever value the spawn returns, [main] returns it reduced to the
    range of [int], and the exit code recorded for the launcher is that
    value modulo 2^32: only bits above the low 32 can be lost in the relay,
    and a failed spawn gives the exit code 2^32 - 1. *)
Theorem exit_code_is_status_mod_2_32 (nd : bool) (w : world)
    (_argv : list (list ascii)) :
  NUL ∉ self_path w → 2 ≤ separators (self_path w) →
  length (self_path w) < SZ → entries _argv < SZ →
  ∃ tr r,
    main nd w _argv = (tr, Ok r) ∧
    (- 2 ^ 31 ≤ r < 2 ^ 31)%Z ∧
    exit_code r
    = (status_of
         (create_process w
            (interpreter_path (spec_install_root (self_path w)))
            (child_args (spec_install_root (self_path w)) _argv))
       mod 2 ^ 32)%Z ∧
    (create_process w
       (interpreter_path (spec_install_root (self_path w)))
       (child_args (spec_install_root (self_path w)) _argv) = SpawnFailed →
     exit_code r = (2 ^ 32 - 1)%Z).
Proof.
  intros H1 H2 H3 H4.
  destruct (main_reaches_spawn nd w _argv H1 H2 H3 H4) as (tr & Hrun & _).
  eexists _, _. split; [exact Hrun|].
  split; [apply to_int_range|]. split; [apply exit_code_to_int_mod|].
  intros ->. by rewrite exit_code_to_int_mod.
Qed.

Lemma exit_code_is_status_mod_2_32_witness :
  (NUL ∉ self_path (sample_world (ChildExited (2 ^ 32 + 5)))) ∧
  2 ≤ separators (self_path (sample_world (ChildExited (2 ^ 32 + 5)))) ∧
  length (self_path (sample_world (ChildExited (2 ^ 32 + 5)))) < SZ ∧
  entries sample_args < SZ ∧
  ∃ tr r,
    main true (sample_world (ChildExited (2 ^ 32 + 5))) sample_args = (tr, Ok r) ∧
    (- 2 ^ 31 ≤ r < 2 ^ 31)%Z ∧ exit_code r = 5%Z.
Proof.
  assert (NUL ∉ self_path (sample_world (ChildExited (2 ^ 32 + 5)))) as H1
    by by_compute.
  assert (2 ≤ separators (self_path (sample_world (ChildExited (2 ^ 32 + 5)))))
    as H2 by by_compute.
  assert (length (self_path (sample_world (ChildExited (2 ^ 32 + 5)))) < SZ)
    as H3 by by_compute.
  assert (entries sample_args < SZ) as H4 by by_compute.
  repeat (split; [assumption|]).
  destruct (exit_code_is_status_mod_2_32 true
              (sample_world (ChildExited (2 ^ 32 + 5))) sample_args H1 H2 H3 H4)
    as (tr & r & Hrun & Hrange & Hcode & _).
  exists tr, r. split; [exact Hrun|]. split; [exact Hrange|].
  rewrite Hcode. reflexivity.
Defined.



(** X12. In a release build the program name has no influence: two argument
    lists that agree after their first element (an empty list and a lone
    program name among them) give the same returned value and the same
    observable behaviour. *)
Theorem program_name_is_ignored (w : world) (l l' : list (list ascii)) :
  NUL ∉ self_path w → 2 ≤ separators (self_path w) →
  length (self_path w) < SZ → entries l < SZ →
  drop 1 l = drop 1 l' →
  (main true w l).2 = (main true w l').2 ∧
  observable (main true w l).1 = observable (main true w l').1.
Proof.
  intros H1 H2 H3 H4 Htail.
  assert (entries l' = entries l) as Hentries.
  { unfold entries. apply (f_equal length) in Htail.
    rewrite !length_drop in Htail. lia. }
  destruct (main_reaches_spawn true w l H1 H2 H3 H4) as (t & -> & Ht).
  destruct (main_reaches_spawn true w l' H1 H2 H3) as (t' & -> & Ht');
    [by rewrite Hentries|].
  cbn [fst snd]. rewrite Ht, Ht'. unfold child_args. by rewrite Htail.
Qed.

Lemma program_name_is_ignored_witness :
  (NUL ∉ self_path (sample_world (ChildExited 7))) ∧
  2 ≤ separators (self_path (sample_world (ChildExited 7))) ∧
  length (self_path (sample_world (ChildExited 7))) < SZ ∧
  entries [lit "launcher"] < SZ ∧
  drop 1 [lit "launcher"] = drop 1 ([] : list (list ascii)) ∧
  (main true (sample_world (ChildExited 7)) [lit "launcher"]).2
  = (main true (sample_world (ChildExited 7)) []).2 ∧
  observable (main true (sample_world (ChildExited 7)) [lit "launcher"]).1
  = observable (main true (sample_world (ChildExited 7)) []).1.
Proof.
  assert (NUL ∉ self_path (sample_world (ChildExited 7))) as H1 by by_compute.
  assert (2 ≤ separators (self_path (sample_world (ChildExited 7)))) as H2
    by by_compute.
  assert (length (self_path (sample_world (ChildExited 7))) < SZ) as H3
    by by_compute.
  assert (entries [lit "launcher"] < SZ) as H4 by by_compute.
  assert (drop 1 [lit "launcher"] = drop 1 ([] : list (list ascii))) as H5
    by reflexivity.
  repeat (split; [assumption|]).
  exact (program_name_is_ignored (sample_world (ChildExited 7))
           [lit "launcher"] [] H1 H2 H3 H4 H5).
Defined.
